(** * E.V.O. decompressor: a shallow embedding of [E.V.O/decomptest.py]

    The Python functions [decompress_evo_data] and
    [detect_decompress_parameters] are transcribed as Rocq functions.
    Python integers are [Z], [bytes]/[bytearray] values are [list byte],
    indexing follows Python (negative indices count from the end, anything
    else out of range raises [IndexError]), and every [print] of the source
    is recorded, in order, in a log of diagnostics.  The [while] loop is run
    with fuel; the fuel used by the top-level function is shown sufficient. *)

From Stdlib Require Import Strings.Ascii Strings.String.
From Stdlib Require Import ZArith List Bool Lia.
From Stdlib Require Import Strings.Byte.
Import ListNotations.
Local Open Scope Z_scope.

Set Implicit Arguments.

(** ** Python values *)

Inductive exn : Type :=
| IndexError
| TypeError.

Inductive result (A : Type) : Type :=
| Ok (a : A)
| Raise (e : exn).

Arguments Ok {A} a.
Arguments Raise {A} e.

(** [len(l)] *)
Definition len {A : Type} (l : list A) : Z := Z.of_nat (length l).

(** [l[i]] on a sequence: a negative index counts from the end. *)
Definition getitem {A : Type} (l : list A) (i : Z) : result A :=
  let j := if i <? 0 then i + len l else i in
  if (j <? 0) || (len l <=? j) then Raise IndexError
  else match nth_error l (Z.to_nat j) with
       | Some x => Ok x
       | None => Raise IndexError
       end.

(** The integer an element of a [bytes] object reads as. *)
Definition byte_val (b : byte) : Z := Z.of_N (Byte.to_N b).

(** ** Diagnostics: one constructor per [print] of the decoder *)

Inductive diag : Type :=
| InfoControlByte (ec : Z)                    (* line 33 *)
| InfoSpecialFlag (flag : bool)               (* line 34 *)
| InfoDataSize (size : Z)                     (* line 35 *)
| SpecialCounterZero (outlen : Z)             (* line 48 *)
| ErrEndOfInput (at_pos : Z)                  (* line 64 *)
| ErrMatchInfo (at_pos : Z)                   (* line 76 *)
| ErrExtendedLength (at_pos : Z)              (* line 92 *)
| ErrInvalidOffset (offset at_pos outlen : Z) (* line 101 *)
| WarnLargeCopy (copy_length : Z)             (* line 106 *)
| WarnExceedsDataSize                         (* line 111 *)
| ErrEmptyOutput                              (* line 116 *)
| WarnIncomplete (expected got : Z).          (* line 129 *)

(** ** Header (lines 19-31) *)

Record header : Type := mkHeader {
  ec_value : Z;
  special_flag : bool;
  data_size : Z
}.

(** ** Loop-local variables of [decompress_evo_data] *)

Record state : Type := mkState {
  output : list byte;
  pos : Z;
  bit_count : Z;
  command_byte : Z;
  special_counter : option Z;
  log : list diag
}.

Definition emit (d : diag) (s : state) : state :=
  mkState (output s) (pos s) (bit_count s) (command_byte s)
          (special_counter s) (log s ++ [d]).

Definition set_pos (p : Z) (s : state) : state :=
  mkState (output s) p (bit_count s) (command_byte s)
          (special_counter s) (log s).

Definition set_output (o : list byte) (s : state) : state :=
  mkState o (pos s) (bit_count s) (command_byte s)
          (special_counter s) (log s).

Definition set_bits (n c : Z) (s : state) : state :=
  mkState (output s) (pos s) n c (special_counter s) (log s).

Definition set_special_counter (c : option Z) (s : state) : state :=
  mkState (output s) (pos s) (bit_count s) (command_byte s) c (log s).

(** ** Control flow of one loop iteration

    A piece of the loop body either goes on with a value ([Next]), leaves
    the loop ([Break]), jumps to the next iteration ([Continue]) or raises. *)

Inductive outcome (A : Type) : Type :=
| Next (a : A)
| Break (s : state)
| Continue (s : state)
| Raised (e : exn).

Arguments Next {A} a.
Arguments Break {A} s.
Arguments Continue {A} s.
Arguments Raised {A} e.

Definition bind {A B : Type} (c : outcome A) (k : A -> outcome B) : outcome B :=
  match c with
  | Next a => k a
  | Break s => Break s
  | Continue s => Continue s
  | Raised e => Raised e
  end.

Definition lift {A : Type} (r : result A) : outcome A :=
  match r with
  | Ok a => Next a
  | Raise e => Raised e
  end.

Definition rbind {A B : Type} (c : result A) (k : A -> result B) : result B :=
  match c with
  | Ok a => k a
  | Raise e => Raise e
  end.

Declare Scope outcome_scope.
Delimit Scope outcome_scope with outcome.
Notation "x <- c ;; k" := (bind c (fun x => k))
  (at level 61, c at next level, right associativity) : outcome_scope.
Notation "' p <- c ;; k" := (bind c (fun x => let p := x in k))
  (at level 61, p pattern, c at next level, right associativity) : outcome_scope.

Declare Scope result_scope.
Delimit Scope result_scope with result.
Notation "x <- c ;; k" := (rbind c (fun x => k))
  (at level 61, c at next level, right associativity) : result_scope.

(** Lines 19-31: the control byte and the 16-bit size; returns the header
    and the cursor after it. *)
Definition parse_header (compressed_data : list byte) (start_offset : Z)
  : result (header * Z) :=
  (c <- getitem compressed_data start_offset ;;
   let pos := start_offset + 1 in
   let ec := byte_val c in
   let ec_flag :=
     if Z.land ec 0x80 =? 0 then (ec, false) else (Z.land ec 0x7F, true) in
   lo <- getitem compressed_data pos ;;
   hi <- getitem compressed_data (pos + 1) ;;
   let size := byte_val lo + Z.shiftl (byte_val hi) 8 in
   Ok (mkHeader (fst ec_flag) (snd ec_flag) size, pos + 2))%result.

(** Lines 120-121: [for i in range(n): output.append(output[len(output) - offset])] *)
Fixpoint copy_back (out : list byte) (offset : Z) (n : nat) : result (list byte) :=
  match n with
  | O => Ok out
  | S n' =>
      (b <- getitem out (len out - offset) ;;
       copy_back (out ++ [b]) offset n')%result
  end.

Section Loop.

Variable compressed_data : list byte.
Variable hdr : header.
Variable special_mode : bool.

(** Line 45 *)
Definition loop_cond (s : state) : bool :=
  (len (output s) <? data_size hdr) && (pos s <? len compressed_data).

(** Lines 47-49 *)
Definition check_special_counter (s : state) : outcome unit :=
  if special_mode then
    match special_counter s with
    | None => Raised TypeError
    | Some c =>
        if c <=? 0 then Break (emit (SpecialCounterZero (len (output s))) s)
        else Next tt
    end
  else Next tt.

(** Lines 52-59: returns the command bit *)
Definition read_command_bit (s : state) : outcome (Z * state) :=
  (s1 <- (if bit_count s =? 8 then
            b <- lift (getitem compressed_data (pos s)) ;;
            Next (set_pos (pos s + 1) (set_bits 0 (byte_val b) s))
          else Next s) ;;
   let s2 := set_bits (bit_count s1 + 1) (command_byte s1) s1 in
   let command_bit := Z.land (command_byte s2) 1 in
   Next (command_bit,
         set_bits (bit_count s2) (Z.shiftr (command_byte s2) 1) s2))%outcome.

(** Lines 71-72 and 124-125 *)
Definition decrement_special (s : state) : outcome state :=
  if special_mode then
    match special_counter s with
    | None => Raised TypeError
    | Some c => Next (set_special_counter (Some (c - 1)) s)
    end
  else Next s.

(** Lines 63-72 *)
Definition literal_branch (s : state) : outcome state :=
  if len compressed_data <=? pos s then Break (emit (ErrEndOfInput (pos s)) s)
  else
    (b <- lift (getitem compressed_data (pos s)) ;;
     let s1 := set_pos (pos s + 1) (set_output (output s ++ [b]) s) in
     decrement_special s1)%outcome.

(** Lines 75-97: returns [offset], [copy_length] and the state after the
    bytes of the match command were read. *)
Definition read_match (s : state) : outcome (Z * Z * state) :=
  if len compressed_data <=? pos s + 1 then Break (emit (ErrMatchInfo (pos s)) s)
  else
    (lo <- lift (getitem compressed_data (pos s)) ;;
     hi <- lift (getitem compressed_data (pos s + 1)) ;;
     let match_info := byte_val lo + Z.shiftl (byte_val hi) 8 in
     let s1 := set_pos (pos s + 2) s in
     let offset := Z.land match_info 0x0FFF + 1 in
     let length_field := Z.land (Z.shiftr match_info 12) 0x0F in
     let copy_length := length_field + ec_value hdr in
     if (length_field =? 0x0F) && special_flag hdr then
       if len compressed_data <=? pos s1 then
         Break (emit (ErrExtendedLength (pos s1)) s1)
       else
         extra <- lift (getitem compressed_data (pos s1)) ;;
         Next (offset, copy_length + byte_val extra, set_pos (pos s1 + 1) s1)
     else Next (offset, copy_length, s1))%outcome.

(** Lines 105-112: the two clamps of [copy_length] *)
Definition clamp_copy_length (copy_length : Z) (s : state) : Z * state :=
  let '(copy_length, s) :=
    if 0x2000 <? copy_length
    then (0x2000, emit (WarnLargeCopy copy_length) s)
    else (copy_length, s) in
  if data_size hdr <? len (output s) + copy_length
  then (data_size hdr - len (output s), emit WarnExceedsDataSize s)
  else (copy_length, s).

(** Lines 100-125 *)
Definition apply_match (offset copy_length : Z) (s : state) : outcome state :=
  if len (output s) <? offset then
    Continue (emit (ErrInvalidOffset offset (pos s - 2) (len (output s))) s)
  else
    let '(copy_length, s) := clamp_copy_length copy_length s in
    if len (output s) =? 0 then Break (emit ErrEmptyOutput s)
    else
      (out <- lift (copy_back (output s) offset (Z.to_nat copy_length)) ;;
       decrement_special (set_output out s))%outcome.

(** Lines 75-125 *)
Definition match_branch (s : state) : outcome state :=
  ('(offset, copy_length, s1) <- read_match s ;;
   apply_match offset copy_length s1)%outcome.

(** Lines 46-125: one iteration of the [while] loop *)
Definition loop_body (s : state) : outcome state :=
  (_ <- check_special_counter s ;;
   '(command_bit, s1) <- read_command_bit s ;;
   if command_bit =? 0 then match_branch s1 else literal_branch s1)%outcome.

(** Lines 45-125: the [while] loop; [None] when the fuel runs out. *)
Fixpoint while_loop (fuel : nat) (s : state) : option (result state) :=
  if loop_cond s then
    match fuel with
    | O => None
    | S fuel' =>
        match loop_body s with
        | Next s' => while_loop fuel' s'
        | Continue s' => while_loop fuel' s'
        | Break s' => Some (Ok s')
        | Raised e => Some (Raise e)
        end
    end
  else Some (Ok s).

(** Lines 128-131 *)
Definition finish (s : state) : list byte * list diag :=
  if len (output s) <? data_size hdr
  then (output s, log s ++ [WarnIncomplete (data_size hdr) (len (output s))])
  else (output s, log s).

End Loop.

(** Lines 33-42: the state on entry to the loop *)
Definition init_state (hdr : header) (special_mode : bool) (p : Z) : state :=
  mkState [] p 8 0 (if special_mode then Some 0x100 else None)
          [InfoControlByte (ec_value hdr); InfoSpecialFlag (special_flag hdr);
           InfoDataSize (data_size hdr)].

(** [decompress_evo_data] with an explicit bound on the loop iterations.
    The result pairs the returned [bytearray] with what was printed. *)
Definition decompress_evo_data_fuel (fuel : nat) (compressed_data : list byte)
    (start_offset : Z) (special_mode : bool)
  : option (result (list byte * list diag)) :=
  match parse_header compressed_data start_offset with
  | Raise e => Some (Raise e)
  | Ok (hdr, p) =>
      match while_loop compressed_data hdr special_mode fuel
                       (init_state hdr special_mode p) with
      | None => None
      | Some (Raise e) => Some (Raise e)
      | Some (Ok s) => Some (Ok (finish hdr s))
      end
  end.

(** Every iteration that goes on moves the cursor forward, so the distance
    from the start offset to the end of the input bounds the iterations. *)
Definition loop_bound (compressed_data : list byte) (start_offset : Z) : nat :=
  Z.to_nat (len compressed_data - start_offset).

Definition decompress_evo_data (compressed_data : list byte)
    (start_offset : Z) (special_mode : bool)
  : option (result (list byte * list diag)) :=
  decompress_evo_data_fuel (loop_bound compressed_data start_offset)
                           compressed_data start_offset special_mode.

(** [detect_decompress_parameters] (lines 144-165) *)
Definition detect_decompress_parameters (compressed_data : list byte)
    (start_offset : Z) : result (bool * Z * Z) :=
  if len compressed_data <=? start_offset + 3 then Ok (false, 0, 0)
  else
    (c <- getitem compressed_data start_offset ;;
     let control_byte := byte_val c in
     lo <- getitem compressed_data (start_offset + 1) ;;
     hi <- getitem compressed_data (start_offset + 2) ;;
     let size := byte_val lo + Z.shiftl (byte_val hi) 8 in
     let is_special_mode := (control_byte =? 0x01) && (size mod 0x100 =? 0) in
     Ok (is_special_mode, control_byte, size))%result.

(** ** Runs of the loop

    [iterates s t s'] : starting from [s] the loop performs the iterations
    listed in [t] and is then about to test its condition in [s'].  An
    iteration is [Emitted] when its command ran to its end (a literal or a
    back-reference) and [Skipped] when it ended in the [continue] of
    line 103. *)

Inductive command_kind : Type :=
| Emitted
| Skipped.

Inductive iterates (compressed_data : list byte) (hdr : header)
    (special_mode : bool) : state -> list command_kind -> state -> Prop :=
| iterates_done (s : state) :
    iterates compressed_data hdr special_mode s [] s
| iterates_emitted (s s1 s' : state) (t : list command_kind) :
    loop_cond compressed_data hdr s = true ->
    loop_body compressed_data hdr special_mode s = Next s1 ->
    iterates compressed_data hdr special_mode s1 t s' ->
    iterates compressed_data hdr special_mode s (Emitted :: t) s'
| iterates_skipped (s s1 s' : state) (t : list command_kind) :
    loop_cond compressed_data hdr s = true ->
    loop_body compressed_data hdr special_mode s = Continue s1 ->
    iterates compressed_data hdr special_mode s1 t s' ->
    iterates compressed_data hdr special_mode s (Skipped :: t) s'.

Fixpoint emitted_count (t : list command_kind) : Z :=
  match t with
  | [] => 0
  | Emitted :: t' => 1 + emitted_count t'
  | Skipped :: t' => emitted_count t'
  end.

(** The diagnostics a call can print at all: everything but the warning of
    line 106 and the error of line 116. *)
Definition printable (d : diag) : bool :=
  match d with
  | WarnLargeCopy _ | ErrEmptyOutput => false
  | _ => true
  end.

(** How a command that ran to its end changes the special counter
    (lines 71-72 and 124-125). *)
Definition counter_decremented (special_mode : bool) (s s' : state) : Prop :=
  if special_mode
  then exists c, special_counter s = Some c /\ special_counter s' = Some (c - 1)
  else special_counter s' = special_counter s.

(** What holds of every state of a call whose header was read: the cursor
    is an index Python accepts or lies past the end, and in special mode
    the counter is an integer. *)
Definition well_formed (compressed_data : list byte) (special_mode : bool)
    (s : state) : Prop :=
  - len compressed_data <= pos s /\
  (special_mode = true -> exists c, special_counter s = Some c).

(** The three lines printed after the header is read (lines 33-35). *)
Definition header_messages (h : header) : list diag :=
  [InfoControlByte (ec_value h); InfoSpecialFlag (special_flag h);
   InfoDataSize (data_size h)].

(** The messages of iterations that stay in the loop (lines 101 and 111). *)
Definition loop_message (d : diag) : bool :=
  match d with
  | ErrInvalidOffset _ _ _ | WarnExceedsDataSize => true
  | _ => false
  end.

(** The messages printed just before a [break] (lines 48, 64, 76, 92). *)
Definition stop_message (d : diag) : bool :=
  match d with
  | SpecialCounterZero _ | ErrEndOfInput _ | ErrMatchInfo _
  | ErrExtendedLength _ => true
  | _ => false
  end.

(** The longest copy a match command can ask for under a header
    (lines 84-97): the largest length field, the base length and, with
    extended lengths, the largest extension byte. *)
Definition max_copy_length (h : header) : Z :=
  0x0F + ec_value h + (if special_flag h then 0xFF else 0).

(** The state of a standard-mode call that corresponds to a state of a
    special-mode call: the same variables, with no special counter. *)
Definition standard_state (s : state) : state := set_special_counter None s.

Definition map_state (f : state -> state) (o : outcome state) : outcome state :=
  match o with
  | Next s => Next (f s)
  | Break s => Break (f s)
  | Continue s => Continue (f s)
  | Raised e => Raised e
  end.

(** ** Streams of literal commands

    Inputs for stating what the decoder does with literal commands; the
    repository has no encoder.  [literal_stream bc payload] is a command
    stream whose commands are all literals: a command byte [ff] wherever the
    decoder fetches one, [bc] being the number of bits taken from the
    current command byte (8 at the start). *)
Fixpoint literal_stream (bc : nat) (payload : list byte) : list byte :=
  match payload with
  | [] => []
  | b :: rest =>
      if Nat.eqb bc 8 then xff :: b :: literal_stream 1 rest
      else b :: literal_stream (S bc) rest
  end.

(** The byte with a given value (0 for a value that is no byte). *)
Definition byte_of (x : Z) : byte :=
  match Byte.of_N (Z.to_N x) with
  | Some b => b
  | None => x00
  end.

(** Header with base length 0, no extended lengths and the length of the
    payload as size, then the payload as literal commands. *)
Definition literal_encoding (payload : list byte) : list byte :=
  [x00; byte_of (len payload mod 256); byte_of (len payload / 256)]
  ++ literal_stream 8 payload.

(** ** The command line: [main] (lines 179-260)

    Reading [sys.argv], parsing the offset with [int] and loading the ROM
    are input; what [main] does with them is modelled from there on. *)

(** Lines 200-208: the arguments after the offset give the ROM file and
    the forced mode. *)
Definition parse_args (args : list string) : string * bool :=
  fold_left
    (fun (st : string * bool) (arg : string) =>
       if String.eqb arg "--special" then (fst st, true)
       else if negb (String.prefix "--" arg) then (arg, snd st)
       else st)
    args ("evo.sfc"%string, false).

(** How [main] ends once the ROM is loaded. *)
Inductive main_result : Type :=
| ExitOffsetBeyondRom                              (* lines 224-226 *)
| Uncaught (e : exn)                               (* raised outside the [try] *)
| ReportedError (special_mode : bool) (e : exn)    (* lines 257-260 *)
| Saved (special_mode : bool) (decompressed : list byte). (* lines 244-255 *)

(** Lines 232-236: the mode is the forced one, or else the guess of the
    heuristic. *)
Definition choose_mode (rom_data : list byte) (decompression_offset : Z)
    (special_mode : bool) : result bool :=
  if special_mode then Ok true
  else
    match detect_decompress_parameters rom_data decompression_offset with
    | Ok (detected_special, _, _) => Ok (if detected_special then true else false)
    | Raise e => Raise e
    end.

(** Lines 223-260.  [Saved] carries what is handed to [f.write]. *)
Definition main_decode (rom_data : list byte) (decompression_offset : Z)
    (special_mode : bool) : option main_result :=
  if len rom_data <=? decompression_offset then Some ExitOffsetBeyondRom
  else
    match choose_mode rom_data decompression_offset special_mode with
    | Raise e => Some (Uncaught e)
    | Ok mode =>
        match decompress_evo_data rom_data decompression_offset mode with
        | None => None
        | Some (Raise e) => Some (ReportedError mode e)
        | Some (Ok (decompressed_data, _)) => Some (Saved mode decompressed_data)
        end
    end.

(** ** [dump_hex] (lines 167-177)

    A Python [str] is modelled as the list of its characters. *)

(** One digit of the [X] presentation type. *)
Definition hex_digit (d : Z) : ascii :=
  nth (Z.to_nat d) (list_ascii_of_string "0123456789ABCDEF") "0"%char.

(** The number of hexadecimal digits of [n >= 0]. *)
Definition hex_width (n : Z) : nat :=
  if n <=? 0 then 1%nat else S (Z.to_nat (Z.log2 n / 4)).

(** [f"{n:0wX}"] for [n >= 0]: the digits of [n] in base 16, most
    significant first, at least [w] of them. *)
Definition format_hex (w : nat) (n : Z) : list ascii :=
  map (fun j => hex_digit ((n / 16 ^ Z.of_nat j) mod 16))
      (rev (seq 0 (Nat.max w (hex_width n)))).

(** [f"{s:<w}"] *)
Definition ljust (w : Z) (s : list ascii) : list ascii :=
  s ++ repeat " "%char (Z.to_nat (w - len s)).

(** [sep.join(parts)] *)
Fixpoint join (sep : list ascii) (parts : list (list ascii)) : list ascii :=
  match parts with
  | [] => []
  | p :: rest =>
      match rest with
      | [] => p
      | _ :: _ => p ++ sep ++ join sep rest
      end
  end.

(** [chr(b) if 32 <= b <= 126 else "."] *)
Definition shown (b : byte) : ascii :=
  if (32 <=? byte_val b) && (byte_val b <=? 126) then ascii_of_byte b
  else "."%char.

(** [data[i:j]] for [0 <= i] *)
Definition slice {A : Type} (data : list A) (i j : Z) : list A :=
  firstn (Z.to_nat (j - i)) (skipn (Z.to_nat i) data).

(** [range(0, n, step)] for [0 <= n] and [step <> 0] *)
Definition range_step (n step : Z) : list Z :=
  if step <=? 0 then []
  else map (fun k => Z.of_nat k * step)
           (seq 0 (Z.to_nat ((n + step - 1) / step))).

(** Line 176: one line of the dump. *)
Definition dump_line (bytes_per_line i : Z) (chunk : list byte) : list ascii :=
  let hex_part :=
    join [" "%char] (map (fun b => format_hex 2 (byte_val b)) chunk) in
  let ascii_part := map shown chunk in
  format_hex 8 i ++ list_ascii_of_string ":  "
  ++ ljust (bytes_per_line * 3) hex_part ++ list_ascii_of_string "  "
  ++ ascii_part.

(** Lines 171-176: the list [result]. *)
Definition dump_hex_lines (data : list byte) (bytes_per_line : Z)
  : list (list ascii) :=
  map (fun i => dump_line bytes_per_line i (slice data i (i + bytes_per_line)))
      (range_step (len data) bytes_per_line).



(** Line 255: [dump_hex(decompressed_data[:128])], the lines of the preview
    [main] prints. *)
Definition main_preview_lines (decompressed_data : list byte)
  : list (list ascii) :=
  dump_hex_lines (slice decompressed_data 0 128) 16.

(** A character Python calls printable ASCII: code 32 to 126. *)
Definition printable_ascii (c : ascii) : bool :=
  (32 <=? N_of_ascii c)%N && (N_of_ascii c <=? 126)%N.

(** ** Decoding a suffix

    A message with its input positions moved back by [k], and a state with
    its cursor and the positions in its log moved back by [k]: what a state
    of a call at offset [k] looks like to a call on the buffer without its
    first [k] bytes. *)
Definition shift_diag (k : Z) (d : diag) : diag :=
  match d with
  | ErrEndOfInput p => ErrEndOfInput (p - k)
  | ErrMatchInfo p => ErrMatchInfo (p - k)
  | ErrExtendedLength p => ErrExtendedLength (p - k)
  | ErrInvalidOffset offset p outlen => ErrInvalidOffset offset (p - k) outlen
  | _ => d
  end.

Definition shift_state (k : Z) (s : state) : state :=
  mkState (output s) (pos s - k) (bit_count s) (command_byte s)
          (special_counter s) (map (shift_diag k) (log s)).

(** The two ways a piece of the loop body hands on a state, and the value
    it goes on with, transformed. *)
Definition map_outcome {A B : Type} (f : A -> B) (g : state -> state)
    (o : outcome A) : outcome B :=
  match o with
  | Next a => Next (f a)
  | Break s => Break (g s)
  | Continue s => Continue (g s)
  | Raised e => Raised e
  end.

Definition map_result {A B : Type} (f : A -> B) (r : result A) : result B :=
  match r with
  | Ok a => Ok (f a)
  | Raise e => Raise e
  end.

(** What a call returns and prints, with the printed positions moved. *)
Definition shift_returned (k : Z) (r : list byte * list diag)
  : list byte * list diag :=
  (fst r, map (shift_diag k) (snd r)).


(** * Properties *)

Unset Implicit Arguments.

(** ** Sequences and bytes *)

Lemma len_app {A : Type} (l1 l2 : list A) : len (l1 ++ l2) = len l1 + len l2.
Proof. unfold len. rewrite length_app. lia. Qed.

Lemma len_snoc {A : Type} (l : list A) (x : A) : len (l ++ [x]) = len l + 1.
Proof. rewrite len_app. reflexivity. Qed.

Lemma byte_val_range (b : byte) : 0 <= byte_val b <= 255.
Proof.
  unfold byte_val. pose proof (Byte.to_N_bounded b). lia.
Qed.

Lemma getitem_in_range {A : Type} (l : list A) (i : Z) :
  0 <= i < len l ->
  exists x, getitem l i = Ok x /\ nth_error l (Z.to_nat i) = Some x.
Proof.
  intros Hi. unfold getitem.
  destruct (i <? 0) eqn:Hneg; [apply Z.ltb_lt in Hneg; lia|].
  destruct ((i <? 0) || (len l <=? i)) eqn:Hout.
  - apply orb_true_iff in Hout. destruct Hout as [H | H].
    + apply Z.ltb_lt in H. lia.
    + apply Z.leb_le in H. lia.
  - destruct (nth_error l (Z.to_nat i)) as [x|] eqn:Hnth.
    + exists x. split; reflexivity.
    + apply nth_error_None in Hnth. unfold len in Hi. lia.
Qed.

Lemma getitem_past_end {A : Type} (l : list A) (i : Z) :
  0 <= i -> len l <= i -> getitem l i = Raise IndexError.
Proof.
  intros H0 Hi. unfold getitem.
  destruct (i <? 0) eqn:Hneg; [apply Z.ltb_lt in Hneg; lia|].
  replace (len l <=? i) with true by (symmetry; apply Z.leb_le; lia).
  rewrite orb_true_r. reflexivity.
Qed.

(** ** Inversion of sequenced steps *)

Lemma bind_Next {A B : Type} (c : outcome A) (k : A -> outcome B) (b : B) :
  bind c k = Next b -> exists a, c = Next a /\ k a = Next b.
Proof. destruct c; simpl; intros H; try discriminate. eauto. Qed.

Lemma bind_Continue {A B : Type} (c : outcome A) (k : A -> outcome B) (s : state) :
  bind c k = Continue s -> c = Continue s \/ exists a, c = Next a /\ k a = Continue s.
Proof.
  destruct c as [a| | |]; simpl; intros H; try discriminate.
  - right. exists a. split; [reflexivity | exact H].
  - left. congruence.
Qed.

Lemma bind_Break {A B : Type} (c : outcome A) (k : A -> outcome B) (s : state) :
  bind c k = Break s -> c = Break s \/ exists a, c = Next a /\ k a = Break s.
Proof.
  destruct c as [a| | |]; simpl; intros H; try discriminate.
  - right. exists a. split; [reflexivity | exact H].
  - left. congruence.
Qed.

Lemma Next_inj {A : Type} (a b : A) : @Next A a = Next b -> a = b.
Proof. intros H. injection H. auto. Qed.

Lemma triple_inj {A B C : Type} (a a' : A) (b b' : B) (c c' : C) :
  (a, b, c) = (a', b', c') -> a = a' /\ b = b' /\ c = c'.
Proof.
  intros H. apply pair_equal_spec in H. destruct H as [H Hc].
  apply pair_equal_spec in H. destruct H as [Ha Hb]. auto.
Qed.

(** ** The back-reference copy *)

Lemma copy_back_length (n : nat) :
  forall out offset out',
    copy_back out offset n = Ok out' -> len out' = len out + Z.of_nat n.
Proof.
  induction n as [|n IH]; intros out offset out' H.
  - simpl in H. injection H as <-. lia.
  - cbn [copy_back] in H.
    destruct (getitem out (len out - offset)) as [b|e]; simpl in H; [|discriminate].
    apply IH in H. rewrite len_snoc in H. lia.
Qed.

Lemma copy_back_step (out : list byte) (offset : Z) (n : nat) :
  1 <= offset <= len out ->
  exists b, nth_error out (Z.to_nat (len out - offset)) = Some b /\
            copy_back out offset (S n) = copy_back (out ++ [b]) offset n.
Proof.
  intros Hoff.
  destruct (getitem_in_range out (len out - offset)) as (b & Hg & Hnth); [lia|].
  exists b. split; [exact Hnth|]. cbn [copy_back]. rewrite Hg. reflexivity.
Qed.

Lemma copy_back_ok (n : nat) :
  forall out offset,
    1 <= offset <= len out ->
    exists ext,
      copy_back out offset n = Ok (out ++ ext) /\ length ext = n /\
      forall i, (i < n)%nat ->
        nth_error (out ++ ext) (length out + i)
        = nth_error (out ++ ext) (length out + i - Z.to_nat offset).
Proof.
  induction n as [|n IH]; intros out offset Hoff.
  - exists []. rewrite app_nil_r. repeat split. intros i Hi. lia.
  - destruct (copy_back_step out offset n Hoff) as (b & Hnth & Hstep).
    destruct (IH (out ++ [b]) offset) as (ext & Hcopy & Hlen & Hidx).
    { rewrite len_snoc. lia. }
    exists (b :: ext). rewrite Hstep, Hcopy, <- app_assoc. simpl.
    repeat split; [lia|].
    intros i Hi. destruct i as [|i].
    + rewrite Nat.add_0_r.
      rewrite nth_error_app2 by lia. rewrite Nat.sub_diag. simpl.
      rewrite nth_error_app1 by (unfold len in Hoff; lia).
      rewrite <- Hnth. f_equal. unfold len. lia.
    + specialize (Hidx i ltac:(lia)).
      rewrite <- app_assoc in Hidx. simpl in Hidx.
      rewrite length_app in Hidx. simpl in Hidx.
      replace (length out + S i)%nat with (length out + 1 + i)%nat by lia.
      exact Hidx.
Qed.

(** ** Case analysis of one iteration *)

Ltac destruct_inner H :=
  match type of H with
  | context [match ?x with _ => _ end] =>
      lazymatch x with
      | context [match _ with _ => _ end] => fail
      | _ => destruct x eqn:?
      end
  end.

Ltac reduce_body H := cbv beta iota zeta delta [bind lift] in H.

Ltac cases_in H :=
  reduce_body H;
  repeat (destruct_inner H; reduce_body H; try discriminate H);
  inversion H; subst; clear H.

Ltac proj_simpl :=
  cbn [output pos log special_counter bit_count command_byte
       emit set_pos set_output set_bits set_special_counter fst snd] in *.

Ltac bool_to_Z :=
  repeat match goal with
  | H : (_ <? _) = true |- _ => apply Z.ltb_lt in H
  | H : (_ <? _) = false |- _ => apply Z.ltb_ge in H
  | H : (_ <=? _) = true |- _ => apply Z.leb_le in H
  | H : (_ <=? _) = false |- _ => apply Z.leb_gt in H
  | H : (_ =? _) = true |- _ => apply Z.eqb_eq in H
  | H : (_ =? _) = false |- _ => apply Z.eqb_neq in H
  | H : (_ && _) = true |- _ => apply andb_true_iff in H; destruct H
  end.

(** ** Bit fields *)

Lemma land_low_bits (a n : Z) : 0 <= n -> 0 <= Z.land a (Z.ones n) < 2 ^ n.
Proof.
  intros Hn. rewrite Z.land_ones by exact Hn.
  apply Z.mod_pos_bound. apply Z.pow_pos_nonneg; lia.
Qed.

Lemma land_0FFF_range (a : Z) : 0 <= Z.land a 0x0FFF <= 4095.
Proof. pose proof (land_low_bits a 12 ltac:(lia)) as H. change (Z.ones 12) with 0x0FFF in H. change (2 ^ 12) with 4096 in H. lia. Qed.

Lemma land_0F_range (a : Z) : 0 <= Z.land a 0x0F <= 15.
Proof. pose proof (land_low_bits a 4 ltac:(lia)) as H. change (Z.ones 4) with 0x0F in H. change (2 ^ 4) with 16 in H. lia. Qed.

Lemma land_7F_range (a : Z) : 0 <= Z.land a 0x7F <= 127.
Proof. pose proof (land_low_bits a 7 ltac:(lia)) as H. change (Z.ones 7) with 0x7F in H. change (2 ^ 7) with 128 in H. lia. Qed.

Lemma word_le (lo hi : byte) :
  byte_val lo + Z.shiftl (byte_val hi) 8 = byte_val lo + 256 * byte_val hi.
Proof. rewrite Z.shiftl_mul_pow2 by lia. change (2 ^ 8) with 256. lia. Qed.

Lemma control_byte_cases (c : byte) :
  (Z.testbit (byte_val c) 7 = false /\ Z.land (byte_val c) 0x80 = 0 /\
   byte_val c <= 127) \/
  (Z.testbit (byte_val c) 7 = true /\ Z.land (byte_val c) 0x80 <> 0).
Proof.
  destruct c; vm_compute;
    ((left; repeat split; discriminate) || (right; split; [reflexivity | discriminate])).
Qed.

(** ** The header *)

Lemma parse_header_inv (data : list byte) (start : Z) (h : header) (p : Z) :
  parse_header data start = Ok (h, p) ->
  exists c lo hi,
    getitem data start = Ok c /\
    getitem data (start + 1) = Ok lo /\
    getitem data (start + 2) = Ok hi /\
    p = start + 3 /\
    data_size h = byte_val lo + 256 * byte_val hi /\
    ((Z.testbit (byte_val c) 7 = true /\ special_flag h = true /\
      ec_value h = Z.land (byte_val c) 0x7F) \/
     (Z.testbit (byte_val c) 7 = false /\ special_flag h = false /\
      ec_value h = byte_val c)).
Proof.
  unfold parse_header. intros H.
  destruct (getitem data start) as [c|] eqn:Hc; [|discriminate].
  cbn [rbind] in H.
  destruct (getitem data (start + 1)) as [lo|] eqn:Hlo; [|discriminate].
  cbn [rbind] in H. replace (start + 1 + 1) with (start + 2) in H by lia.
  destruct (getitem data (start + 2)) as [hi|] eqn:Hhi; [|discriminate].
  cbn [rbind] in H. injection H as <- <-.
  exists c, lo, hi. repeat split; try reflexivity; try lia.
  - cbn [data_size]. apply word_le.
  - cbn [ec_value special_flag].
    destruct (control_byte_cases c) as [(Hb & Hl & _) | (Hb & Hl)].
    + right. rewrite Hl. simpl. auto.
    + left. apply Z.eqb_neq in Hl. rewrite Hl. simpl. auto.
Qed.

Lemma parse_header_range (data : list byte) (start : Z) (h : header) (p : Z) :
  parse_header data start = Ok (h, p) ->
  0 <= ec_value h <= 127 /\ 0 <= data_size h <= 65535.
Proof.
  intros H. apply parse_header_inv in H.
  destruct H as (c & lo & hi & _ & _ & _ & _ & Hsize & Hec).
  split.
  - destruct Hec as [(_ & _ & ->) | (Hb & _ & ->)].
    + apply land_7F_range.
    + destruct (control_byte_cases c) as [(_ & _ & Hle) | (Hb' & _)];
        [|congruence].
      pose proof (byte_val_range c). lia.
  - rewrite Hsize. pose proof (byte_val_range lo). pose proof (byte_val_range hi). lia.
Qed.

(** ** The pieces of one iteration *)

Section Iteration.

Variable compressed_data : list byte.
Variable hdr : header.
Variable special_mode : bool.

Lemma check_special_counter_Next (s : state) (u : unit) :
  check_special_counter special_mode s = Next u ->
  special_mode = true -> exists c, special_counter s = Some c /\ 0 < c.
Proof.
  unfold check_special_counter. intros H Hm. rewrite Hm in H.
  destruct (special_counter s) as [c|]; [|discriminate].
  destruct (c <=? 0) eqn:Hc; [discriminate|].
  apply Z.leb_gt in Hc. exists c. split; [reflexivity | lia].
Qed.

Lemma check_special_counter_Break (s s' : state) :
  check_special_counter special_mode s = Break s' ->
  s' = emit (SpecialCounterZero (len (output s))) s /\
  special_mode = true /\ exists c, special_counter s = Some c /\ c <= 0.
Proof.
  unfold check_special_counter. intros H.
  destruct special_mode; [|discriminate].
  destruct (special_counter s) as [c|]; [|discriminate].
  destruct (c <=? 0) eqn:Hc; [|discriminate].
  apply Z.leb_le in Hc. injection H as <-.
  split; [reflexivity|]. split; [reflexivity|]. exists c. split; [reflexivity | lia].
Qed.

Lemma check_special_counter_not_Continue (s s' : state) :
  check_special_counter special_mode s <> Continue s'.
Proof.
  unfold check_special_counter.
  destruct special_mode; [|discriminate].
  destruct (special_counter s) as [c|]; [|discriminate].
  destruct (c <=? 0); discriminate.
Qed.

Lemma read_command_bit_Next (s : state) (bit : Z) (s' : state) :
  read_command_bit compressed_data s = Next (bit, s') ->
  output s' = output s /\ log s' = log s /\
  special_counter s' = special_counter s /\
  pos s' = (if bit_count s =? 8 then pos s + 1 else pos s).
Proof.
  unfold read_command_bit. intros H.
  destruct (bit_count s =? 8).
  - cases_in H. proj_simpl. repeat split.
  - cases_in H. proj_simpl. repeat split.
Qed.

Lemma read_command_bit_not_Break (s s' : state) :
  read_command_bit compressed_data s <> Break s'.
Proof.
  unfold read_command_bit. intros H.
  destruct (bit_count s =? 8); cases_in H.
Qed.

Lemma read_command_bit_not_Continue (s s' : state) :
  read_command_bit compressed_data s <> Continue s'.
Proof.
  unfold read_command_bit. intros H.
  destruct (bit_count s =? 8); cases_in H.
Qed.

Lemma decrement_special_Next (s s' : state) :
  decrement_special special_mode s = Next s' ->
  output s' = output s /\ pos s' = pos s /\ log s' = log s /\
  counter_decremented special_mode s s'.
Proof.
  unfold decrement_special, counter_decremented. intros H.
  destruct special_mode.
  - destruct (special_counter s) as [c|] eqn:Hc; [|discriminate].
    injection H as <-. proj_simpl. repeat split. exists c. split; reflexivity.
  - injection H as <-. repeat split.
Qed.

Lemma decrement_special_not_Break (s s' : state) :
  decrement_special special_mode s <> Break s'.
Proof.
  unfold decrement_special.
  destruct special_mode; [|discriminate].
  destruct (special_counter s); discriminate.
Qed.

Lemma decrement_special_not_Continue (s s' : state) :
  decrement_special special_mode s <> Continue s'.
Proof.
  unfold decrement_special.
  destruct special_mode; [|discriminate].
  destruct (special_counter s); discriminate.
Qed.

Lemma literal_branch_Next (s s' : state) :
  literal_branch compressed_data special_mode s = Next s' ->
  exists b, getitem compressed_data (pos s) = Ok b /\
            output s' = output s ++ [b] /\ pos s' = pos s + 1 /\
            log s' = log s /\ counter_decremented special_mode s s'.
Proof.
  unfold literal_branch. intros H.
  destruct (len compressed_data <=? pos s); [discriminate|].
  destruct (getitem compressed_data (pos s)) as [b|] eqn:Hb; [|discriminate].
  cbn [lift bind] in H. apply decrement_special_Next in H.
  destruct H as (Ho & Hp & Hl & Hc). proj_simpl.
  exists b. repeat split; assumption.
Qed.

Lemma literal_branch_Break (s s' : state) :
  literal_branch compressed_data special_mode s = Break s' ->
  s' = emit (ErrEndOfInput (pos s)) s.
Proof.
  unfold literal_branch. intros H.
  destruct (len compressed_data <=? pos s); [congruence|].
  destruct (getitem compressed_data (pos s)) as [b|]; [|discriminate].
  cbn [lift bind] in H. apply decrement_special_not_Break in H. contradiction.
Qed.

Lemma literal_branch_not_Continue (s s' : state) :
  literal_branch compressed_data special_mode s <> Continue s'.
Proof.
  unfold literal_branch. intros H.
  destruct (len compressed_data <=? pos s); [discriminate|].
  destruct (getitem compressed_data (pos s)) as [b|]; [|discriminate].
  cbn [lift bind] in H. apply decrement_special_not_Continue in H. contradiction.
Qed.

Lemma read_match_Next (s : state) (offset copy_length : Z) (s' : state) :
  read_match compressed_data hdr s = Next (offset, copy_length, s') ->
  exists lo hi,
    getitem compressed_data (pos s) = Ok lo /\
    getitem compressed_data (pos s + 1) = Ok hi /\
    let match_info := byte_val lo + Z.shiftl (byte_val hi) 8 in
    let length_field := Z.land (Z.shiftr match_info 12) 0x0F in
    offset = Z.land match_info 0x0FFF + 1 /\
    output s' = output s /\ log s' = log s /\
    special_counter s' = special_counter s /\
    ((length_field = 0x0F /\ special_flag hdr = true /\
      exists extra, getitem compressed_data (pos s + 2) = Ok extra /\
                    copy_length = length_field + ec_value hdr + byte_val extra /\
                    pos s' = pos s + 3) \/
     ((length_field =? 0x0F) && special_flag hdr = false /\
      copy_length = length_field + ec_value hdr /\ pos s' = pos s + 2)).
Proof.
  unfold read_match. intros H.
  destruct (len compressed_data <=? pos s + 1); [discriminate|].
  destruct (getitem compressed_data (pos s)) as [lo|] eqn:Hlo; [|discriminate].
  destruct (getitem compressed_data (pos s + 1)) as [hi|] eqn:Hhi; [|discriminate].
  cbn [lift bind] in H. cbv zeta in H. proj_simpl.
  exists lo, hi. split; [reflexivity|]. split; [reflexivity|]. cbv zeta.
  destruct ((Z.land (Z.shiftr (byte_val lo + Z.shiftl (byte_val hi) 8) 12) 15 =? 15)
            && special_flag hdr) eqn:Hext.
  - destruct (len compressed_data <=? pos s + 2); [discriminate|].
    destruct (getitem compressed_data (pos s + 2)) as [extra|] eqn:He; [|discriminate].
    cbn [lift bind] in H.
    apply Next_inj, triple_inj in H. destruct H as (<- & <- & <-). proj_simpl.
    apply andb_true_iff in Hext. destruct Hext as [Hlf Hflag].
    apply Z.eqb_eq in Hlf.
    repeat split. left. split; [exact Hlf|]. split; [exact Hflag|].
    exists extra. split; [reflexivity|]. split; [reflexivity | lia].
  - apply Next_inj, triple_inj in H. destruct H as (<- & <- & <-). proj_simpl.
    repeat split. right. repeat split.
Qed.

Lemma read_match_Break (s s' : state) :
  read_match compressed_data hdr s = Break s' ->
  s' = emit (ErrMatchInfo (pos s)) s \/
  s' = emit (ErrExtendedLength (pos s + 2)) (set_pos (pos s + 2) s).
Proof.
  unfold read_match. intros H.
  destruct (len compressed_data <=? pos s + 1); [left; congruence|].
  destruct (getitem compressed_data (pos s)) as [lo|]; [|discriminate].
  destruct (getitem compressed_data (pos s + 1)) as [hi|]; [|discriminate].
  cbn [lift bind] in H. cbv zeta in H. proj_simpl.
  destruct (_ && _); [|discriminate].
  destruct (len compressed_data <=? pos s + 2); [right; congruence|].
  destruct (getitem compressed_data (pos s + 2)); discriminate.
Qed.

Lemma read_match_not_Continue (s s' : state) :
  read_match compressed_data hdr s <> Continue s'.
Proof.
  unfold read_match. intros H.
  destruct (len compressed_data <=? pos s + 1); [discriminate|].
  destruct (getitem compressed_data (pos s)) as [lo|]; [|discriminate].
  destruct (getitem compressed_data (pos s + 1)) as [hi|]; [|discriminate].
  cbn [lift bind] in H. cbv zeta in H. proj_simpl.
  destruct (_ && _); [|discriminate].
  destruct (len compressed_data <=? pos s + 2); [discriminate|].
  destruct (getitem compressed_data (pos s + 2)); discriminate.
Qed.

Lemma read_match_bits (s : state) (offset copy_length : Z) (s' : state) :
  read_match compressed_data hdr s = Next (offset, copy_length, s') ->
  bit_count s' = bit_count s /\ command_byte s' = command_byte s.
Proof.
  unfold read_match. intros H.
  destruct (len compressed_data <=? pos s + 1); [discriminate|].
  destruct (getitem compressed_data (pos s)) as [lo|]; [|discriminate].
  destruct (getitem compressed_data (pos s + 1)) as [hi|]; [|discriminate].
  cbn [lift bind] in H. cbv zeta in H. proj_simpl.
  destruct (_ && _).
  - destruct (len compressed_data <=? pos s + 2); [discriminate|].
    destruct (getitem compressed_data (pos s + 2)) as [extra|]; [|discriminate].
    cbn [lift bind] in H.
    apply Next_inj, triple_inj in H. destruct H as (_ & _ & <-). split; reflexivity.
  - apply Next_inj, triple_inj in H. destruct H as (_ & _ & <-). split; reflexivity.
Qed.

(** What reading a match command guarantees once the header is in range. *)
Lemma read_match_bounds (s : state) (offset copy_length : Z) (s' : state) :
  0 <= ec_value hdr <= 127 ->
  read_match compressed_data hdr s = Next (offset, copy_length, s') ->
  1 <= offset <= 4096 /\ 0 <= copy_length <= 397 /\
  pos s + 2 <= pos s' <= pos s + 3 /\
  output s' = output s /\ log s' = log s /\
  special_counter s' = special_counter s.
Proof.
  intros Hec H. apply read_match_Next in H.
  destruct H as (lo & hi & _ & _ & H). cbv zeta in H.
  destruct H as (Hoff & Ho & Hl & Hc & Hcases).
  pose proof (land_0FFF_range (byte_val lo + Z.shiftl (byte_val hi) 8)).
  pose proof (land_0F_range (Z.shiftr (byte_val lo + Z.shiftl (byte_val hi) 8) 12)).
  destruct Hcases as [(_ & _ & extra & _ & Hcl & Hp) | (_ & Hcl & Hp)].
  - pose proof (byte_val_range extra). repeat split; try assumption; lia.
  - repeat split; try assumption; lia.
Qed.

Lemma clamp_copy_length_spec (copy_length : Z) (s : state) :
  let r := clamp_copy_length hdr copy_length s in
  output (snd r) = output s /\ pos (snd r) = pos s /\
  special_counter (snd r) = special_counter s /\
  fst r <= 0x2000 /\ fst r <= copy_length /\
  len (output s) + fst r <= data_size hdr /\
  (copy_length <= 0x2000 ->
   log (snd r) = log s \/ log (snd r) = log s ++ [WarnExceedsDataSize]).
Proof.
  unfold clamp_copy_length. cbv zeta.
  destruct (0x2000 <? copy_length) eqn:H1; proj_simpl; bool_to_Z.
  - destruct (data_size hdr <? len (output s) + 0x2000) eqn:H2;
      proj_simpl; bool_to_Z; repeat split; try lia.
  - destruct (data_size hdr <? len (output s) + copy_length) eqn:H2;
      proj_simpl; bool_to_Z; repeat split; try lia; intros _; auto.
Qed.

Lemma apply_match_Continue (offset copy_length : Z) (s s' : state) :
  apply_match hdr special_mode offset copy_length s = Continue s' ->
  len (output s) < offset /\
  s' = emit (ErrInvalidOffset offset (pos s - 2) (len (output s))) s.
Proof.
  unfold apply_match. intros H.
  destruct (len (output s) <? offset) eqn:Hoff.
  - apply Z.ltb_lt in Hoff. injection H as <-. split; [exact Hoff | reflexivity].
  - destruct (clamp_copy_length hdr copy_length s) as [cl s1].
    destruct (len (output s1) =? 0); [discriminate|].
    destruct (copy_back (output s1) offset (Z.to_nat cl)); [|discriminate].
    cbn [lift bind] in H. apply decrement_special_not_Continue in H. contradiction.
Qed.

Lemma apply_match_Break (offset copy_length : Z) (s s' : state) :
  apply_match hdr special_mode offset copy_length s = Break s' ->
  offset <= len (output s) /\ len (output s) = 0 /\
  s' = emit ErrEmptyOutput (snd (clamp_copy_length hdr copy_length s)).
Proof.
  unfold apply_match. intros H.
  destruct (len (output s) <? offset) eqn:Hoff; [discriminate|].
  apply Z.ltb_ge in Hoff.
  pose proof (clamp_copy_length_spec copy_length s) as Hclamp. cbv zeta in Hclamp.
  destruct (clamp_copy_length hdr copy_length s) as [cl s1]. proj_simpl.
  destruct Hclamp as (Ho & _).
  destruct (len (output s1) =? 0) eqn:Hz.
  - apply Z.eqb_eq in Hz. injection H as <-. rewrite Ho in Hz. repeat split; assumption.
  - destruct (copy_back (output s1) offset (Z.to_nat cl)); [|discriminate].
    cbn [lift bind] in H. apply decrement_special_not_Break in H. contradiction.
Qed.

Lemma apply_match_Next (offset copy_length : Z) (s s' : state) :
  apply_match hdr special_mode offset copy_length s = Next s' ->
  offset <= len (output s) /\
  copy_back (output s) offset
            (Z.to_nat (fst (clamp_copy_length hdr copy_length s)))
  = Ok (output s') /\
  pos s' = pos s /\
  log s' = log (snd (clamp_copy_length hdr copy_length s)) /\
  counter_decremented special_mode s s'.
Proof.
  unfold apply_match. intros H.
  destruct (len (output s) <? offset) eqn:Hoff; [discriminate|].
  apply Z.ltb_ge in Hoff.
  pose proof (clamp_copy_length_spec copy_length s) as Hclamp. cbv zeta in Hclamp.
  destruct (clamp_copy_length hdr copy_length s) as [cl s1]. proj_simpl.
  destruct Hclamp as (Ho & Hp & Hc & _).
  destruct (len (output s1) =? 0); [discriminate|].
  rewrite Ho in H.
  destruct (copy_back (output s) offset (Z.to_nat cl)) as [out|]; [|discriminate].
  cbn [lift bind] in H. apply decrement_special_Next in H.
  destruct H as (Ho' & Hp' & Hl' & Hc'). proj_simpl.
  split; [exact Hoff|]. split; [congruence|]. split; [congruence|].
  split; [exact Hl'|].
  unfold counter_decremented in *. destruct special_mode.
  - destruct Hc' as (c & Hc1 & Hc2). proj_simpl. exists c. split; congruence.
  - proj_simpl. congruence.
Qed.

(** *** Decomposition of the match branch and of the whole body *)

Lemma match_branch_Next (s s' : state) :
  match_branch compressed_data hdr special_mode s = Next s' ->
  exists offset copy_length s1,
    read_match compressed_data hdr s = Next (offset, copy_length, s1) /\
    apply_match hdr special_mode offset copy_length s1 = Next s'.
Proof.
  unfold match_branch. intros H. apply bind_Next in H.
  destruct H as ([[offset copy_length] s1] & Hr & Ha).
  exists offset, copy_length, s1. split; assumption.
Qed.

Lemma match_branch_Continue (s s' : state) :
  match_branch compressed_data hdr special_mode s = Continue s' ->
  exists offset copy_length s1,
    read_match compressed_data hdr s = Next (offset, copy_length, s1) /\
    apply_match hdr special_mode offset copy_length s1 = Continue s'.
Proof.
  unfold match_branch. intros H. apply bind_Continue in H.
  destruct H as [H | ([[offset copy_length] s1] & Hr & Ha)].
  - apply read_match_not_Continue in H. contradiction.
  - exists offset, copy_length, s1. split; assumption.
Qed.

Lemma match_branch_Break (s s' : state) :
  match_branch compressed_data hdr special_mode s = Break s' ->
  read_match compressed_data hdr s = Break s' \/
  exists offset copy_length s1,
    read_match compressed_data hdr s = Next (offset, copy_length, s1) /\
    apply_match hdr special_mode offset copy_length s1 = Break s'.
Proof.
  unfold match_branch. intros H. apply bind_Break in H.
  destruct H as [H | ([[offset copy_length] s1] & Hr & Ha)].
  - left. exact H.
  - right. exists offset, copy_length, s1. split; assumption.
Qed.

Lemma loop_body_Next (s s' : state) :
  loop_body compressed_data hdr special_mode s = Next s' ->
  check_special_counter special_mode s = Next tt /\
  exists command_bit s1,
    read_command_bit compressed_data s = Next (command_bit, s1) /\
    ((command_bit = 0 /\
      match_branch compressed_data hdr special_mode s1 = Next s') \/
     (command_bit <> 0 /\
      literal_branch compressed_data special_mode s1 = Next s')).
Proof.
  unfold loop_body. intros H. apply bind_Next in H.
  destruct H as ([] & Hc & H). split; [exact Hc|].
  apply bind_Next in H. destruct H as ([command_bit s1] & Hb & H).
  exists command_bit, s1. split; [exact Hb|].
  destruct (command_bit =? 0) eqn:Hz.
  - left. apply Z.eqb_eq in Hz. split; assumption.
  - right. apply Z.eqb_neq in Hz. split; assumption.
Qed.

Lemma loop_body_Continue (s s' : state) :
  loop_body compressed_data hdr special_mode s = Continue s' ->
  check_special_counter special_mode s = Next tt /\
  exists s1,
    read_command_bit compressed_data s = Next (0, s1) /\
    match_branch compressed_data hdr special_mode s1 = Continue s'.
Proof.
  unfold loop_body. intros H. apply bind_Continue in H.
  destruct H as [H | ([] & Hc & H)].
  { apply check_special_counter_not_Continue in H. contradiction. }
  split; [exact Hc|]. apply bind_Continue in H.
  destruct H as [H | ([command_bit s1] & Hb & H)].
  { apply read_command_bit_not_Continue in H. contradiction. }
  destruct (command_bit =? 0) eqn:Hz.
  - apply Z.eqb_eq in Hz. subst command_bit. exists s1. split; assumption.
  - apply literal_branch_not_Continue in H. contradiction.
Qed.

Lemma loop_body_Break (s s' : state) :
  loop_body compressed_data hdr special_mode s = Break s' ->
  check_special_counter special_mode s = Break s' \/
  (check_special_counter special_mode s = Next tt /\
   exists command_bit s1,
     read_command_bit compressed_data s = Next (command_bit, s1) /\
     ((command_bit = 0 /\
       match_branch compressed_data hdr special_mode s1 = Break s') \/
      (command_bit <> 0 /\
       literal_branch compressed_data special_mode s1 = Break s'))).
Proof.
  unfold loop_body. intros H. apply bind_Break in H.
  destruct H as [H | ([] & Hc & H)]; [left; exact H | right].
  split; [exact Hc|]. apply bind_Break in H.
  destruct H as [H | ([command_bit s1] & Hb & H)].
  { apply read_command_bit_not_Break in H. contradiction. }
  exists command_bit, s1. split; [exact Hb|].
  destruct (command_bit =? 0) eqn:Hz.
  - left. apply Z.eqb_eq in Hz. split; assumption.
  - right. apply Z.eqb_neq in Hz. split; assumption.
Qed.

End Iteration.

(** ** What one iteration does to the state *)

Section Step.

Variable compressed_data : list byte.
Variable hdr : header.
Variable special_mode : bool.

Hypothesis ec_range : 0 <= ec_value hdr <= 127.

Local Abbreviation body := (loop_body compressed_data hdr special_mode).
Local Abbreviation cond := (loop_cond compressed_data hdr).

Lemma read_command_bit_pos (s : state) (bit : Z) (s' : state) :
  read_command_bit compressed_data s = Next (bit, s') ->
  pos s <= pos s' <= pos s + 1.
Proof.
  intros H. apply read_command_bit_Next in H. destruct H as (_ & _ & _ & Hp).
  destruct (bit_count s =? 8); lia.
Qed.

Lemma loop_cond_true (s : state) :
  cond s = true ->
  len (output s) < data_size hdr /\ pos s < len compressed_data.
Proof.
  unfold loop_cond. intros H. apply andb_true_iff in H. destruct H as [H1 H2].
  apply Z.ltb_lt in H1. apply Z.ltb_lt in H2. split; assumption.
Qed.

(** A command that runs to its end: a literal or a back-reference. *)
Lemma body_Next_facts (s s' : state) :
  cond s = true -> body s = Next s' ->
  pos s < pos s' /\
  len (output s) <= len (output s') <= data_size hdr /\
  len (output s') <= len (output s) + 0x2000 /\
  counter_decremented special_mode s s' /\
  (special_mode = true -> exists c, special_counter s = Some c /\ 0 < c) /\
  (log s' = log s \/ log s' = log s ++ [WarnExceedsDataSize]).
Proof.
  intros Hcond H. apply loop_cond_true in Hcond. destruct Hcond as [Hlen _].
  apply loop_body_Next in H. destruct H as (Hchk & bit & s1 & Hbit & H).
  pose proof (read_command_bit_pos _ _ _ Hbit) as Hp1.
  apply read_command_bit_Next in Hbit. destruct Hbit as (Ho1 & Hl1 & Hc1 & _).
  assert (Hcnt : forall s2, counter_decremented special_mode s1 s2 ->
                            counter_decremented special_mode s s2).
  { unfold counter_decremented. intros s2. destruct special_mode.
    - intros (c & Ha & Hb). exists c. split; congruence.
    - congruence. }
  destruct H as [(_ & H) | (_ & H)].
  - apply match_branch_Next in H. destruct H as (offset & cl & s2 & Hr & Ha).
    apply read_match_bounds in Hr; [|exact ec_range].
    destruct Hr as (Hoff & Hcl & Hp2 & Ho2 & Hl2 & Hc2).
    apply apply_match_Next in Ha. destruct Ha as (_ & Hcopy & Hp3 & Hl3 & Hc3).
    pose proof (clamp_copy_length_spec hdr cl s2) as Hclamp. cbv zeta in Hclamp.
    destruct Hclamp as (_ & _ & _ & Hle & _ & Hfit & Hlog).
    apply copy_back_length in Hcopy.
    rewrite Ho2, Ho1 in Hcopy, Hfit.
    repeat split; try lia.
    + apply Hcnt. unfold counter_decremented in *. destruct special_mode.
      * destruct Hc3 as (c & Ha & Hb). exists c. split; congruence.
      * congruence.
    + intros Hm. eapply check_special_counter_Next; eassumption.
    + rewrite Hl3. destruct (Hlog ltac:(lia)) as [-> | ->];
        [left | right]; congruence.
  - apply literal_branch_Next in H.
    destruct H as (b & _ & Ho2 & Hp2 & Hl2 & Hc2).
    rewrite Ho2, len_snoc, Ho1.
    repeat split; try lia.
    + apply Hcnt. exact Hc2.
    + intros Hm. eapply check_special_counter_Next; eassumption.
    + left. congruence.
Qed.

(** A skipped command: the [continue] of line 103. *)
Lemma body_Continue_facts (s s' : state) :
  body s = Continue s' ->
  pos s < pos s' /\ output s' = output s /\
  special_counter s' = special_counter s /\
  exists offset,
    len (output s) < offset /\
    log s' = log s ++ [ErrInvalidOffset offset (pos s' - 2) (len (output s))].
Proof.
  intros H. apply loop_body_Continue in H. destruct H as (_ & s1 & Hbit & H).
  pose proof (read_command_bit_pos _ _ _ Hbit) as Hp1.
  apply read_command_bit_Next in Hbit. destruct Hbit as (Ho1 & Hl1 & Hc1 & _).
  apply match_branch_Continue in H. destruct H as (offset & cl & s2 & Hr & Ha).
  apply read_match_bounds in Hr; [|exact ec_range].
  destruct Hr as (_ & _ & Hp2 & Ho2 & Hl2 & Hc2).
  apply apply_match_Continue in Ha. destruct Ha as (Hoff & ->). proj_simpl.
  repeat split; try lia; try congruence.
  exists offset. split; [congruence|]. rewrite Hl2, Hl1, Ho2, Ho1. reflexivity.
Qed.

(** Leaving the loop from inside: lines 49, 65, 77 and 93.  The [break] of
    line 117 does not occur. *)
Lemma body_Break_facts (s s' : state) :
  body s = Break s' ->
  output s' = output s /\
  exists d, log s' = log s ++ [d] /\
            (d = SpecialCounterZero (len (output s)) \/
             (exists p, d = ErrEndOfInput p) \/
             (exists p, d = ErrMatchInfo p) \/
             (exists p, d = ErrExtendedLength p)).
Proof.
  intros H. apply loop_body_Break in H.
  destruct H as [H | (_ & bit & s1 & Hbit & H)].
  { apply check_special_counter_Break in H. destruct H as (-> & _). proj_simpl.
    split; [reflexivity|]. eexists. split; [reflexivity|]. left. reflexivity. }
  apply read_command_bit_Next in Hbit. destruct Hbit as (Ho1 & Hl1 & _).
  destruct H as [(_ & H) | (_ & H)].
  - apply match_branch_Break in H.
    destruct H as [H | (offset & cl & s2 & Hr & Ha)].
    + apply read_match_Break in H. destruct H as [-> | ->]; proj_simpl;
        (split; [exact Ho1|]); rewrite Hl1; eexists; (split; [reflexivity|]).
      * right. right. left. eexists. reflexivity.
      * right. right. right. eexists. reflexivity.
    + apply read_match_Next in Hr. destruct Hr as (lo & hi & _ & _ & Hr).
      cbv zeta in Hr. destruct Hr as (Hoff & _).
      apply apply_match_Break in Ha. destruct Ha as (Hle & Hz & _).
      pose proof (land_0FFF_range (byte_val lo + Z.shiftl (byte_val hi) 8)).
      lia.
  - apply literal_branch_Break in H. subst s'. proj_simpl.
    split; [exact Ho1|]. rewrite Hl1. eexists. split; [reflexivity|].
    right. left. eexists. reflexivity.
Qed.

End Step.

(** ** The loop as a whole *)

Section WhileLoop.

Variable compressed_data : list byte.
Variable hdr : header.
Variable special_mode : bool.

Hypothesis ec_range : 0 <= ec_value hdr <= 127.

Local Abbreviation body := (loop_body compressed_data hdr special_mode).
Local Abbreviation cond := (loop_cond compressed_data hdr).
Local Abbreviation while := (while_loop compressed_data hdr special_mode).
Local Abbreviation steps := (iterates compressed_data hdr special_mode).

(** The distance to the end of the input is enough fuel. *)
Lemma while_loop_enough_fuel (fuel : nat) :
  forall s, (Z.to_nat (len compressed_data - pos s) <= fuel)%nat ->
            exists r, while fuel s = Some r.
Proof.
  induction fuel as [|fuel IH]; intros s Hfuel.
  - cbn [while_loop]. destruct (cond s) eqn:Hc; [|eauto].
    apply loop_cond_true in Hc. lia.
  - cbn [while_loop]. destruct (cond s) eqn:Hc; [|eauto].
    destruct (body s) as [s'|s'|s'|e] eqn:Hb; eauto.
    + apply IH. apply body_Next_facts in Hb; [|exact ec_range|exact Hc]. lia.
    + apply IH. apply body_Continue_facts in Hb; [|exact ec_range]. lia.
Qed.

Lemma while_loop_more_fuel (fuel : nat) :
  forall s r fuel', while fuel s = Some r -> (fuel <= fuel')%nat ->
                    while fuel' s = Some r.
Proof.
  induction fuel as [|fuel IH]; intros s r fuel' H Hle.
  - cbn [while_loop] in H. destruct (cond s) eqn:Hc; [discriminate|].
    destruct fuel'; cbn [while_loop]; rewrite Hc; exact H.
  - destruct fuel' as [|fuel']; [lia|].
    cbn [while_loop] in *. destruct (cond s); [|exact H].
    destruct (body s) as [s'|s'|s'|e]; try exact H; apply IH; (exact H || lia).
Qed.

(** The state the loop ends in was reached by iterating, and the loop ends
    there because its condition fails or the body breaks. *)
Lemma while_loop_iterates (fuel : nat) :
  forall s r, while fuel s = Some (Ok r) ->
    exists t s_last,
      steps s t s_last /\
      ((cond s_last = false /\ r = s_last) \/
       (cond s_last = true /\ body s_last = Break r)).
Proof.
  induction fuel as [|fuel IH]; intros s r H; cbn [while_loop] in H;
    destruct (cond s) eqn:Hc.
  - discriminate.
  - injection H as <-. exists [], s. split; [constructor | left; auto].
  - destruct (body s) as [s'|s'|s'|e] eqn:Hb.
    + apply IH in H. destruct H as (t & s_last & Hsteps & Hend).
      exists (Emitted :: t), s_last. split; [|exact Hend].
      eapply iterates_emitted; eassumption.
    + injection H as <-. exists [], s. split; [constructor | right; auto].
    + apply IH in H. destruct H as (t & s_last & Hsteps & Hend).
      exists (Skipped :: t), s_last. split; [|exact Hend].
      eapply iterates_skipped; eassumption.
    + discriminate.
  - injection H as <-. exists [], s. split; [constructor | left; auto].
Qed.

(** An invariant of the iterations holds wherever the loop gets to. *)
Lemma iterates_invariant (I : state -> Prop) :
  (forall s s', I s -> cond s = true -> body s = Next s' -> I s') ->
  (forall s s', I s -> cond s = true -> body s = Continue s' -> I s') ->
  forall s t s', steps s t s' -> I s -> I s'.
Proof.
  intros Hnext Hcont s t s' Hsteps.
  induction Hsteps as [s | s s1 s' t Hc Hb _ IH | s s1 s' t Hc Hb _ IH];
    intros HI; eauto.
Qed.

Lemma iterates_output_bounded (s : state) (t : list command_kind) (s' : state) :
  steps s t s' -> len (output s) <= data_size hdr ->
  len (output s') <= data_size hdr.
Proof.
  intros Hsteps. revert Hsteps.
  apply (iterates_invariant (fun x => len (output x) <= data_size hdr)).
  - intros x x' _ Hc Hb. apply body_Next_facts in Hb; [|exact ec_range|exact Hc]. lia.
  - intros x x' Hx _ Hb. apply body_Continue_facts in Hb; [|exact ec_range].
    destruct Hb as (_ & -> & _). exact Hx.
Qed.

Lemma iterates_log_printable (s : state) (t : list command_kind) (s' : state) :
  steps s t s' -> Forall (fun d => printable d = true) (log s) ->
  Forall (fun d => printable d = true) (log s').
Proof.
  intros Hsteps. revert Hsteps.
  apply (iterates_invariant (fun x => Forall (fun d => printable d = true) (log x))).
  - intros x x' Hx Hc Hb. apply body_Next_facts in Hb; [|exact ec_range|exact Hc].
    destruct Hb as (_ & _ & _ & _ & _ & [-> | ->]); [exact Hx|].
    apply Forall_app. split; [exact Hx | repeat constructor].
  - intros x x' Hx _ Hb. apply body_Continue_facts in Hb; [|exact ec_range].
    destruct Hb as (_ & _ & _ & offset & _ & ->).
    apply Forall_app. split; [exact Hx | repeat constructor].
Qed.

(** In special mode the counter is the initial value less the number of
    commands that ran to their end, and it never goes below zero. *)
Lemma iterates_special_counter (s : state) (t : list command_kind) (s' : state) :
  steps s t s' -> special_mode = true ->
  forall c, special_counter s = Some c -> 0 <= c ->
            special_counter s' = Some (c - emitted_count t) /\
            0 <= emitted_count t <= c.
Proof.
  intros Hsteps Hm.
  induction Hsteps as [s | s s1 s' t Hc Hb _ IH | s s1 s' t Hc Hb _ IH];
    intros c Hs Hpos; cbn [emitted_count].
  - split; [rewrite Z.sub_0_r; exact Hs | lia].
  - apply body_Next_facts in Hb; [|exact ec_range|exact Hc].
    destruct Hb as (_ & _ & _ & Hdec & Hgt & _).
    unfold counter_decremented in Hdec. rewrite Hm in Hdec.
    destruct Hdec as (c0 & Hc0 & Hc1). destruct (Hgt Hm) as (c2 & Hc2 & Hc2pos).
    assert (c0 = c) by congruence. assert (c2 = c) by congruence. subst c0 c2.
    destruct (IH (c - 1) Hc1 ltac:(lia)) as (IH1 & IH2).
    split; [rewrite IH1; f_equal; lia | lia].
  - apply body_Continue_facts in Hb; [|exact ec_range].
    destruct Hb as (_ & _ & Hsame & _).
    apply IH; [congruence | exact Hpos].
Qed.

End WhileLoop.

(** ** The whole call *)

Lemma decompress_fuel_header_error (fuel : nat) (data : list byte) (start : Z)
    (special : bool) (e : exn) :
  parse_header data start = Raise e ->
  decompress_evo_data_fuel fuel data start special = Some (Raise e).
Proof. unfold decompress_evo_data_fuel. intros ->. reflexivity. Qed.

Lemma decompress_fuel_Ok_inv (fuel : nat) (data : list byte) (start : Z)
    (special : bool) (out : list byte) (lg : list diag) :
  decompress_evo_data_fuel fuel data start special = Some (Ok (out, lg)) ->
  exists h p s,
    parse_header data start = Ok (h, p) /\
    while_loop data h special fuel (init_state h special p) = Some (Ok s) /\
    finish h s = (out, lg).
Proof.
  unfold decompress_evo_data_fuel. intros H.
  destruct (parse_header data start) as [[h p]|e] eqn:Hh; [|discriminate].
  destruct (while_loop data h special fuel (init_state h special p))
    as [[s|e]|] eqn:Hw; try discriminate.
  injection H as H. exists h, p, s. split; [reflexivity|]. split; assumption.
Qed.

Lemma loop_bound_enough (data : list byte) (start : Z) (h : header) (p : Z)
    (special : bool) :
  parse_header data start = Ok (h, p) ->
  (Z.to_nat (len data - pos (init_state h special p)) <= loop_bound data start)%nat.
Proof.
  intros H. apply parse_header_inv in H.
  destruct H as (_ & _ & _ & _ & _ & _ & -> & _).
  unfold loop_bound. cbn [init_state pos]. lia.
Qed.

(** The fuel of [decompress_evo_data] is never used up, and more fuel
    changes nothing. *)
Lemma decompress_fuel_stable (data : list byte) (start : Z) (special : bool)
    (fuel : nat) :
  (loop_bound data start <= fuel)%nat ->
  decompress_evo_data_fuel fuel data start special
  = decompress_evo_data data start special /\
  exists r, decompress_evo_data data start special = Some r.
Proof.
  intros Hfuel. unfold decompress_evo_data, decompress_evo_data_fuel.
  destruct (parse_header data start) as [[h p]|e] eqn:Hh; [|eauto].
  pose proof (parse_header_range _ _ _ _ Hh) as [Hec _].
  destruct (while_loop_enough_fuel data h special Hec (loop_bound data start)
              (init_state h special p)) as (r & Hr).
  { eapply loop_bound_enough. exact Hh. }
  rewrite Hr.
  rewrite (while_loop_more_fuel data h special _ _ _ fuel Hr Hfuel).
  split; [reflexivity|]. destruct r; eauto.
Qed.

Lemma truncated_header_raises (data : list byte) (start : Z) (special : bool) :
  0 <= start -> len data < start + 3 ->
  decompress_evo_data data start special = Some (Raise IndexError).
Proof.
  intros H0 Hlen. unfold decompress_evo_data.
  apply decompress_fuel_header_error. unfold parse_header.
  destruct (Z_lt_ge_dec start (len data)) as [H1 | H1].
  2: { rewrite getitem_past_end by lia. reflexivity. }
  destruct (getitem_in_range data start ltac:(lia)) as (c & -> & _).
  cbn [rbind].
  destruct (Z_lt_ge_dec (start + 1) (len data)) as [H2 | H2].
  2: { rewrite getitem_past_end by lia. reflexivity. }
  destruct (getitem_in_range data (start + 1) ltac:(lia)) as (lo & -> & _).
  cbn [rbind]. rewrite getitem_past_end by lia. reflexivity.
Qed.

(** ** No exception once the header is read

    Inside the loop every read is guarded and the special counter is an
    integer whenever special mode is on, so the only exception a call can
    raise is the [IndexError] of the header reads. *)

Lemma getitem_valid {A : Type} (l : list A) (i : Z) :
  - len l <= i < len l -> exists x, getitem l i = Ok x.
Proof.
  intros Hi. unfold getitem.
  destruct (i <? 0) eqn:Hneg.
  - apply Z.ltb_lt in Hneg.
    replace ((i + len l <? 0) || (len l <=? i + len l)) with false.
    + destruct (nth_error l (Z.to_nat (i + len l))) as [x|] eqn:Hnth; [eauto|].
      apply nth_error_None in Hnth. unfold len in *. lia.
    + symmetry. apply orb_false_iff. split; [apply Z.ltb_ge | apply Z.leb_gt]; lia.
  - apply Z.ltb_ge in Hneg.
    destruct (getitem_in_range l i ltac:(lia)) as (x & Hx & _).
    exists x. unfold getitem in Hx. rewrite (proj2 (Z.ltb_ge i 0) Hneg) in Hx.
    exact Hx.
Qed.

Lemma getitem_Ok_index {A : Type} (l : list A) (i : Z) (x : A) :
  getitem l i = Ok x -> - len l <= i < len l.
Proof.
  unfold getitem. intros H.
  destruct (i <? 0) eqn:Hneg;
    [apply Z.ltb_lt in Hneg | apply Z.ltb_ge in Hneg];
    match type of H with
    | (if ?c then _ else _) = _ => destruct c eqn:Hout; [discriminate|]
    end;
    apply orb_false_iff in Hout; destruct Hout as [H1 H2];
    apply Z.ltb_ge in H1; apply Z.leb_gt in H2; lia.
Qed.

Section NoException.

Variable compressed_data : list byte.
Variable hdr : header.
Variable special_mode : bool.

Hypothesis ec_range : 0 <= ec_value hdr <= 127.

Local Abbreviation well_formed := (well_formed compressed_data special_mode).

Lemma decrement_special_returns (s : state) :
  (special_mode = true -> exists c, special_counter s = Some c) ->
  exists s', decrement_special special_mode s = Next s'.
Proof.
  unfold decrement_special. intros H. destruct special_mode; [|eauto].
  destruct (H eq_refl) as (c & ->). eauto.
Qed.

Lemma loop_body_no_exception (s : state) (e : exn) :
  well_formed s -> loop_cond compressed_data hdr s = true ->
  loop_body compressed_data hdr special_mode s <> Raised e.
Proof.
  intros [Hpos Hcnt] Hc Hb. apply loop_cond_true in Hc. destruct Hc as [_ Hlt].
  unfold loop_body in Hb.
  destruct (check_special_counter special_mode s) as [[]| | |e0] eqn:Hchk;
    cbn [bind] in Hb; try discriminate.
  2: { unfold check_special_counter in Hchk. destruct special_mode; [|discriminate].
       destruct (Hcnt eq_refl) as (c & Hs). rewrite Hs in Hchk.
       destruct (c <=? 0); discriminate. }
  destruct (read_command_bit compressed_data s) as [[bit s1]| | |e0] eqn:Hbit;
    cbn [bind] in Hb; try discriminate.
  2: { unfold read_command_bit in Hbit.
       destruct (getitem_valid compressed_data (pos s) ltac:(lia)) as (b & Hg).
       rewrite Hg in Hbit. destruct (bit_count s =? 8); discriminate. }
  pose proof (read_command_bit_pos _ _ _ _ Hbit) as Hp1.
  apply read_command_bit_Next in Hbit. destruct Hbit as (Ho1 & _ & Hc1 & _).
  rewrite <- Hc1 in Hcnt.
  destruct (bit =? 0).
  - unfold match_branch in Hb.
    destruct (read_match compressed_data hdr s1) as [[[offset cl] s2]| | |e0] eqn:Hr;
      cbn [bind] in Hb; try discriminate.
    + pose proof (read_match_bounds _ _ _ _ _ _ ec_range Hr)
        as (Hoff & _ & _ & Ho2 & _ & Hc2).
      unfold apply_match in Hb.
      destruct (len (output s2) <? offset) eqn:Hlt2; [discriminate|].
      apply Z.ltb_ge in Hlt2.
      pose proof (clamp_copy_length_spec hdr cl s2) as Hclamp. cbv zeta in Hclamp.
      destruct (clamp_copy_length hdr cl s2) as [cl' s3]. proj_simpl.
      destruct Hclamp as (Ho3 & _ & Hc3 & _).
      destruct (len (output s3) =? 0); [discriminate|].
      destruct (copy_back_ok (Z.to_nat cl') (output s3) offset) as (ext & Hcopy & _).
      { rewrite Ho3. lia. }
      rewrite Hcopy in Hb. cbn [lift bind] in Hb.
      destruct (decrement_special_returns (set_output (output s3 ++ ext) s3))
        as (s' & Hd).
      { proj_simpl. rewrite Hc3, Hc2. exact Hcnt. }
      rewrite Hd in Hb. discriminate.
    + unfold read_match in Hr.
      destruct (len compressed_data <=? pos s1 + 1) eqn:Hg1; [discriminate|].
      apply Z.leb_gt in Hg1.
      destruct (getitem_valid compressed_data (pos s1) ltac:(lia)) as (lo & Hlo).
      destruct (getitem_valid compressed_data (pos s1 + 1) ltac:(lia)) as (hi & Hhi).
      rewrite Hlo, Hhi in Hr. cbn [lift bind] in Hr. cbv zeta in Hr. proj_simpl.
      destruct (_ && _); [|discriminate].
      destruct (len compressed_data <=? pos s1 + 2) eqn:Hg2; [discriminate|].
      apply Z.leb_gt in Hg2.
      destruct (getitem_valid compressed_data (pos s1 + 2) ltac:(lia)) as (ex & Hex).
      rewrite Hex in Hr. discriminate.
  - unfold literal_branch in Hb.
    destruct (len compressed_data <=? pos s1) eqn:Hg; [discriminate|].
    apply Z.leb_gt in Hg.
    destruct (getitem_valid compressed_data (pos s1) ltac:(lia)) as (b & Hb1).
    rewrite Hb1 in Hb. cbn [lift bind] in Hb.
    destruct (decrement_special_returns
                (set_pos (pos s1 + 1) (set_output (output s1 ++ [b]) s1)))
      as (s' & Hd).
    { proj_simpl. exact Hcnt. }
    rewrite Hd in Hb. discriminate.
Qed.

Lemma counter_decremented_defined (s s' : state) :
  counter_decremented special_mode s s' ->
  (special_mode = true -> exists c, special_counter s = Some c) ->
  (special_mode = true -> exists c, special_counter s' = Some c).
Proof.
  unfold counter_decremented. intros Hd Hs Hm. rewrite Hm in Hd.
  destruct Hd as (c & _ & Hc). eauto.
Qed.

Lemma well_formed_Next (s s' : state) :
  well_formed s -> loop_cond compressed_data hdr s = true ->
  loop_body compressed_data hdr special_mode s = Next s' -> well_formed s'.
Proof.
  intros [Hpos Hcnt] Hc Hb. apply body_Next_facts in Hb; [|exact ec_range | exact Hc].
  destruct Hb as (Hp & _ & _ & Hd & _). split; [lia|].
  eapply counter_decremented_defined; eassumption.
Qed.

Lemma well_formed_Continue (s s' : state) :
  well_formed s ->
  loop_body compressed_data hdr special_mode s = Continue s' -> well_formed s'.
Proof.
  intros [Hpos Hcnt] Hb. apply body_Continue_facts in Hb; [|exact ec_range].
  destruct Hb as (Hp & _ & Hsame & _). split; [lia|]. rewrite Hsame. exact Hcnt.
Qed.

Lemma while_loop_no_exception (fuel : nat) :
  forall s e, well_formed s ->
              while_loop compressed_data hdr special_mode fuel s <> Some (Raise e).
Proof.
  induction fuel as [|fuel IH]; intros s e Hwf H; cbn [while_loop] in H;
    destruct (loop_cond compressed_data hdr s) eqn:Hc; try discriminate.
  destruct (loop_body compressed_data hdr special_mode s) as [s'|s'|s'|e0] eqn:Hb.
  - eapply IH; [|exact H]. eapply well_formed_Next; eassumption.
  - discriminate.
  - eapply IH; [|exact H]. eapply well_formed_Continue; eassumption.
  - eapply loop_body_no_exception; eassumption.
Qed.

End NoException.

(** A call whose header can be read returns. *)
Lemma decompress_returns (data : list byte) (start : Z) (special : bool)
    (h : header) (p : Z) :
  parse_header data start = Ok (h, p) ->
  exists out lg, decompress_evo_data data start special = Some (Ok (out, lg)).
Proof.
  intros Hh.
  destruct (decompress_fuel_stable data start special (loop_bound data start)
              (Nat.le_refl _)) as (_ & r & Hr).
  pose proof (parse_header_range _ _ _ _ Hh) as [Hec _].
  unfold decompress_evo_data, decompress_evo_data_fuel in *. rewrite Hh in *.
  destruct (while_loop data h special (loop_bound data start)
                       (init_state h special p)) as [[s|e]|] eqn:Hw.
  - destruct (finish h s) as [out lg]. eauto.
  - exfalso. eapply (while_loop_no_exception data h special Hec); [|exact Hw].
    split.
    + apply parse_header_inv in Hh.
      destruct Hh as (c & _ & _ & Hc & _ & _ & -> & _).
      apply getitem_Ok_index in Hc. cbn [init_state pos]. lia.
    + intros ->. cbn [init_state special_counter]. eauto.
  - discriminate.
Qed.

(** A call that returns went through some iterations and then left the loop
    on its condition or on a [break]. *)
Lemma decompress_Ok_run (data : list byte) (start : Z) (special : bool)
    (out : list byte) (lg : list diag) :
  decompress_evo_data data start special = Some (Ok (out, lg)) ->
  exists h p t s_last r,
    parse_header data start = Ok (h, p) /\
    iterates data h special (init_state h special p) t s_last /\
    ((loop_cond data h s_last = false /\ r = s_last) \/
     (loop_cond data h s_last = true /\
      loop_body data h special s_last = Break r)) /\
    finish h r = (out, lg).
Proof.
  unfold decompress_evo_data. intros H.
  apply decompress_fuel_Ok_inv in H. destruct H as (h & p & r & Hh & Hw & Hf).
  apply while_loop_iterates in Hw. destruct Hw as (t & s_last & Hsteps & Hend).
  exists h, p, t, s_last, r. repeat split; assumption.
Qed.

Lemma finish_output (h : header) (s : state) : fst (finish h s) = output s.
Proof. unfold finish. destruct (len (output s) <? data_size h); reflexivity. Qed.

Lemma decompress_output_bounded (data : list byte) (start : Z) (special : bool)
    (h : header) (p : Z) (out : list byte) (lg : list diag) :
  parse_header data start = Ok (h, p) ->
  decompress_evo_data data start special = Some (Ok (out, lg)) ->
  len out <= data_size h.
Proof.
  intros Hh H. apply decompress_Ok_run in H.
  destruct H as (h' & p' & t & s_last & r & Hh' & Hsteps & Hend & Hf).
  rewrite Hh in Hh'. injection Hh' as <- <-.
  pose proof (parse_header_range _ _ _ _ Hh) as [Hec Hsize].
  apply iterates_output_bounded in Hsteps;
    [|exact Hec | change (len (output (init_state h special p))) with 0; lia].
  pose proof (finish_output h r) as Ho. rewrite Hf in Ho. cbn [fst] in Ho.
  subst out. destruct Hend as [(_ & ->) | (_ & Hb)]; [exact Hsteps|].
  apply body_Break_facts in Hb. destruct Hb as (-> & _). exact Hsteps.
Qed.

Lemma decompress_log_printable (data : list byte) (start : Z) (special : bool)
    (out : list byte) (lg : list diag) :
  decompress_evo_data data start special = Some (Ok (out, lg)) ->
  Forall (fun d => printable d = true) lg.
Proof.
  intros H. apply decompress_Ok_run in H.
  destruct H as (h & p & t & s_last & r & Hh & Hsteps & Hend & Hf).
  pose proof (parse_header_range _ _ _ _ Hh) as [Hec _].
  apply iterates_log_printable in Hsteps;
    [|exact Hec | cbn [init_state log]; repeat constructor].
  assert (Hr : Forall (fun d => printable d = true) (log r)).
  { destruct Hend as [(_ & ->) | (_ & Hb)]; [exact Hsteps|].
    apply body_Break_facts in Hb. destruct Hb as (_ & d & -> & Hd).
    apply Forall_app. split; [exact Hsteps|]. constructor; [|constructor].
    destruct Hd as [-> | [(q & ->) | [(q & ->) | (q & ->)]]]; reflexivity. }
  unfold finish in Hf. destruct (len (output r) <? data_size h);
    injection Hf as <- <-; [|exact Hr].
  apply Forall_app. split; [exact Hr | repeat constructor].
Qed.

(** ** Commands that run to their end *)





(** * The claims *)

(** C1.  A back-reference reads the growing output one byte at a time.
    The input with header [00 04 00], command byte [03], literals [41 42]
    and match word [01 20] decodes to [41 42 41 42].  A match command that
    runs copies with [copy_back]; each of its steps reads the byte at
    (current length - offset) of the output as it stands after the appends
    made so far, so every appended byte equals the byte [offset] positions
    before it, and an offset smaller than the copy length repeats the tail
    (offset 2, five copies after [41 42] give [41 42 41 42 41 42 41], also
    as a whole call with size 7 and match word [01 50]). *)
Theorem C1_overlapping_back_reference :
  decompress_evo_data [x00; x04; x00; x03; x41; x42; x01; x20] 0 false
  = Some (Ok ([x41; x42; x41; x42],
              [InfoControlByte 0; InfoSpecialFlag false; InfoDataSize 4])) /\
  (forall hdr special offset copy_length s s',
     apply_match hdr special offset copy_length s = Next s' ->
     copy_back (output s) offset
               (Z.to_nat (fst (clamp_copy_length hdr copy_length s)))
     = Ok (output s')) /\
  (forall out offset n b,
     getitem out (len out - offset) = Ok b ->
     copy_back out offset (S n) = copy_back (out ++ [b]) offset n) /\
  (forall out offset n,
     1 <= offset <= len out ->
     exists ext,
       copy_back out offset n = Ok (out ++ ext) /\ length ext = n /\
       forall i, (i < n)%nat ->
         nth_error (out ++ ext) (length out + i)
         = nth_error (out ++ ext) (length out + i - Z.to_nat offset)) /\
  copy_back [x41; x42] 2 5 = Ok [x41; x42; x41; x42; x41; x42; x41] /\
  decompress_evo_data [x00; x07; x00; x03; x41; x42; x01; x50] 0 false
  = Some (Ok ([x41; x42; x41; x42; x41; x42; x41],
              [InfoControlByte 0; InfoSpecialFlag false; InfoDataSize 7])).
Proof.
  split; [vm_compute; reflexivity|].
  split.
  { intros hdr special offset copy_length s s' H.
    apply apply_match_Next in H. destruct H as (_ & H & _). exact H. }
  split.
  { intros out offset n b Hb. cbn [copy_back]. rewrite Hb. reflexivity. }
  split.
  { intros out offset n Hoff. apply copy_back_ok. exact Hoff. }
  split; vm_compute; reflexivity.
Qed.

(** C2.  With at least three bytes at the start offset the header is read
    without error: the byte at the offset is the control byte; bit 7 set
    gives the extended-length flag and the low seven bits as base length,
    bit 7 clear gives no flag and the byte itself; the size is the
    little-endian 16-bit value of the next two bytes; the cursor ends three
    bytes further. *)
Theorem C2_parse_header (data : list byte) (start : Z) :
  0 <= start -> start + 3 <= len data ->
  exists c lo hi h,
    nth_error data (Z.to_nat start) = Some c /\
    nth_error data (Z.to_nat start + 1) = Some lo /\
    nth_error data (Z.to_nat start + 2) = Some hi /\
    parse_header data start = Ok (h, start + 3) /\
    (Z.testbit (byte_val c) 7 = true ->
     special_flag h = true /\ ec_value h = Z.land (byte_val c) 0x7F) /\
    (Z.testbit (byte_val c) 7 = false ->
     special_flag h = false /\ ec_value h = byte_val c) /\
    data_size h = byte_val lo + 256 * byte_val hi /\
    0 <= data_size h < 65536.
Proof.
  intros H0 Hlen.
  destruct (getitem_in_range data start ltac:(lia)) as (c & Hc & Hnc).
  destruct (getitem_in_range data (start + 1) ltac:(lia)) as (lo & Hlo & Hnlo).
  destruct (getitem_in_range data (start + 2) ltac:(lia)) as (hi & Hhi & Hnhi).
  destruct (parse_header data start) as [[h p]|e] eqn:Hh.
  2: { unfold parse_header in Hh. rewrite Hc in Hh. cbn [rbind] in Hh.
       rewrite Hlo in Hh. cbn [rbind] in Hh.
       replace (start + 1 + 1) with (start + 2) in Hh by lia.
       rewrite Hhi in Hh. discriminate. }
  pose proof (parse_header_range _ _ _ _ Hh) as [_ Hsize].
  apply parse_header_inv in Hh.
  destruct Hh as (c' & lo' & hi' & Hc' & Hlo' & Hhi' & -> & Hds & Hbit).
  assert (c' = c) by congruence. assert (lo' = lo) by congruence.
  assert (hi' = hi) by congruence. subst c' lo' hi'.
  exists c, lo, hi, h.
  replace (Z.to_nat start + 1)%nat with (Z.to_nat (start + 1)) by lia.
  replace (Z.to_nat start + 2)%nat with (Z.to_nat (start + 2)) by lia.
  repeat split; try assumption; try lia.
  - destruct Hbit as [(_ & Hf & _) | (Hb & _)]; [exact Hf | congruence].
  - destruct Hbit as [(_ & _ & He) | (Hb & _)]; [exact He | congruence].
  - destruct Hbit as [(Hb & _) | (_ & Hf & _)]; [congruence | exact Hf].
  - destruct Hbit as [(Hb & _) | (_ & _ & He)]; [congruence | exact He].
Qed.

Lemma C2_parse_header_witness :
  exists c lo hi h,
    nth_error [x85; x34; x12] (Z.to_nat 0) = Some c /\
    nth_error [x85; x34; x12] (Z.to_nat 0 + 1) = Some lo /\
    nth_error [x85; x34; x12] (Z.to_nat 0 + 2) = Some hi /\
    parse_header [x85; x34; x12] 0 = Ok (h, 0 + 3) /\
    (Z.testbit (byte_val c) 7 = true ->
     special_flag h = true /\ ec_value h = Z.land (byte_val c) 0x7F) /\
    (Z.testbit (byte_val c) 7 = false ->
     special_flag h = false /\ ec_value h = byte_val c) /\
    data_size h = byte_val lo + 256 * byte_val hi /\
    0 <= data_size h < 65536.
Proof.
  apply (C2_parse_header [x85; x34; x12] 0); [lia | vm_compute; discriminate].
Defined.




(** Forty groups of a command byte [ff] and eight literals, size 0x1000:
    in special mode the call stops after 256 literals. *)
Example special_mode_stops_after_256_commands :
  decompress_evo_data
    ([x00; x00; x10] ++ concat (repeat (xff :: repeat x41 8) 40)) 0 true
  = Some (Ok (repeat x41 256,
              [InfoControlByte 0; InfoSpecialFlag false; InfoDataSize 4096;
               SpecialCounterZero 256; WarnIncomplete 4096 256])).
Proof. vm_compute. reflexivity. Qed.




(** C5.  A buffer with fewer than three bytes at the start offset: the
    header reads of lines 20 and 30 are not guarded, so the call raises
    [IndexError] and returns nothing, where the reads inside the loop print
    an error, leave the loop and return the output produced so far (last
    conjunct: a literal command with no byte left). *)
Theorem C5_truncated_header_raises :
  decompress_evo_data [] 0 false = Some (Raise IndexError) /\
  decompress_evo_data [x00; x04] 0 false = Some (Raise IndexError) /\
  decompress_evo_data [x00; x04] 0 true = Some (Raise IndexError) /\
  decompress_evo_data [x00; x04; x00; x01] 0 false
  = Some (Ok ([], [InfoControlByte 0; InfoSpecialFlag false; InfoDataSize 4;
                   ErrEndOfInput 4; WarnIncomplete 4 0])).
Proof.
  repeat split; try (apply truncated_header_raises; vm_compute; congruence).
Qed.

(** C6 (as stated, refuted).  Three bytes at the start offset hold a whole
    header with control byte 1 and size 0, a multiple of 256, and the
    heuristic still answers [False]: the guard of line 144 wants four. *)
Lemma C6_counterexample :
  parse_header [x01; x00; x00] 0 = Ok (mkHeader 1 false 0, 3) /\
  getitem [x01; x00; x00] 0 = Ok x01 /\ byte_val x01 = 1 /\
  0 mod 256 = 0 /\
  detect_decompress_parameters [x01; x00; x00] 0 = Ok (false, 0, 0).
Proof. repeat split. Qed.

(** C6 (amended).  For a non-negative start offset the heuristic returns
    without error, and it guesses alternate mode exactly when more than
    three bytes are available from the start offset, the raw control byte
    is 1 and the 16-bit size is a multiple of 256.  When it passes the
    guard it also returns the raw control byte and the size; when the guard
    of line 144 rejects the buffer it returns [(False, 0, 0)], whatever the
    bytes of the buffer. *)
Theorem C6_mode_heuristic (data : list byte) (start : Z) :
  0 <= start ->
  exists guess control size,
    detect_decompress_parameters data start = Ok (guess, control, size) /\
    (guess = true <->
     start + 3 < len data /\
     exists c lo hi,
       getitem data start = Ok c /\ getitem data (start + 1) = Ok lo /\
       getitem data (start + 2) = Ok hi /\
       byte_val c = 1 /\ (byte_val lo + 256 * byte_val hi) mod 256 = 0) /\
    (start + 3 < len data ->
     exists c lo hi,
       getitem data start = Ok c /\ getitem data (start + 1) = Ok lo /\
       getitem data (start + 2) = Ok hi /\
       control = byte_val c /\ size = byte_val lo + 256 * byte_val hi) /\
    (len data <= start + 3 -> guess = false /\ control = 0 /\ size = 0).
Proof.
  intros H0. unfold detect_decompress_parameters.
  destruct (len data <=? start + 3) eqn:Hg.
  - apply Z.leb_le in Hg. exists false, 0, 0. split; [reflexivity|].
    split; [split; [discriminate | lia]|]. split; [lia|].
    intros _. repeat split.
  - apply Z.leb_gt in Hg.
    destruct (getitem_in_range data start ltac:(lia)) as (c & Hc & _).
    destruct (getitem_in_range data (start + 1) ltac:(lia)) as (lo & Hlo & _).
    destruct (getitem_in_range data (start + 2) ltac:(lia)) as (hi & Hhi & _).
    rewrite Hc. cbn [rbind]. rewrite Hlo. cbn [rbind]. rewrite Hhi. cbn [rbind].
    rewrite word_le.
    eexists _, _, _. split; [reflexivity|]. split.
    + rewrite andb_true_iff, !Z.eqb_eq. split.
      * intros [H1 H2]. split; [exact Hg|]. exists c, lo, hi. auto.
      * intros (_ & c' & lo' & hi' & Hc' & Hlo' & Hhi' & H1 & H2).
        assert (c' = c) by congruence. assert (lo' = lo) by congruence.
        assert (hi' = hi) by congruence. subst. auto.
    + split; [|lia]. intros _. exists c, lo, hi. auto.
Qed.

Lemma C6_mode_heuristic_witness :
  exists guess control size,
    detect_decompress_parameters [x01; x00; x02; x0f] 0
    = Ok (guess, control, size) /\
    (guess = true <->
     0 + 3 < len [x01; x00; x02; x0f] /\
     exists c lo hi,
       getitem [x01; x00; x02; x0f] 0 = Ok c /\
       getitem [x01; x00; x02; x0f] (0 + 1) = Ok lo /\
       getitem [x01; x00; x02; x0f] (0 + 2) = Ok hi /\
       byte_val c = 1 /\ (byte_val lo + 256 * byte_val hi) mod 256 = 0) /\
    (0 + 3 < len [x01; x00; x02; x0f] ->
     exists c lo hi,
       getitem [x01; x00; x02; x0f] 0 = Ok c /\
       getitem [x01; x00; x02; x0f] (0 + 1) = Ok lo /\
       getitem [x01; x00; x02; x0f] (0 + 2) = Ok hi /\
       control = byte_val c /\ size = byte_val lo + 256 * byte_val hi) /\
    (len [x01; x00; x02; x0f] <= 0 + 3 ->
     guess = false /\ control = 0 /\ size = 0).
Proof. apply (C6_mode_heuristic [x01; x00; x02; x0f] 0). lia. Defined.

(** C7.  The call terminates for every buffer, start offset and mode: the
    fuel of [decompress_evo_data] is never used up and any larger amount
    gives the same result.  An iteration that does not leave the loop moves
    the cursor forward by at least one byte, so the loop condition
    [pos < len(compressed_data)] fails after at most
    [len(compressed_data) - start_offset] iterations, and an iteration
    appends at most 0x2000 bytes.  Once the header is read the call returns
    its output; it raises nothing. *)
Theorem C7_terminates (data : list byte) (start : Z) (special : bool) :
  (exists r, decompress_evo_data data start special = Some r) /\
  (forall fuel, (loop_bound data start <= fuel)%nat ->
     decompress_evo_data_fuel fuel data start special
     = decompress_evo_data data start special) /\
  (forall h p, parse_header data start = Ok (h, p) ->
     (forall s s',
        loop_body data h special s = Next s' \/
        loop_body data h special s = Continue s' ->
        loop_cond data h s = true ->
        pos s < pos s' /\ len (output s') <= len (output s) + 0x2000) /\
     (forall s fuel,
        (Z.to_nat (len data - pos s) <= fuel)%nat ->
        exists r, while_loop data h special fuel s = Some r) /\
     exists out lg, decompress_evo_data data start special = Some (Ok (out, lg))).
Proof.
  split.
  { apply (decompress_fuel_stable data start special (loop_bound data start)). lia. }
  split.
  { intros fuel Hfuel. apply decompress_fuel_stable. exact Hfuel. }
  intros h p Hh. pose proof (parse_header_range _ _ _ _ Hh) as [Hec _].
  split; [|split].
  - intros s s' [Hb | Hb] Hc.
    + apply body_Next_facts in Hb; [|exact Hec | exact Hc]. lia.
    + apply body_Continue_facts in Hb; [|exact Hec].
      destruct Hb as (Hp & -> & _). lia.
  - intros s fuel Hfuel. apply while_loop_enough_fuel; assumption.
  - eapply decompress_returns. exact Hh.
Qed.

(** C8.  The output never gets longer than the size of the header: in the
    returned result, in every state the loop reaches, after a literal
    (appended only while the length is below the size), and at every step
    of a back-reference, whose copy length is first clamped to the room
    that is left. *)
Theorem C8_output_bounded (data : list byte) (start : Z) (special : bool)
    (h : header) (p : Z) :
  parse_header data start = Ok (h, p) ->
  (forall out lg,
     decompress_evo_data data start special = Some (Ok (out, lg)) ->
     len out <= data_size h) /\
  (forall t s,
     iterates data h special (init_state h special p) t s ->
     len (output s) <= data_size h) /\
  (forall s s',
     loop_cond data h s = true -> literal_branch data special s = Next s' ->
     len (output s) < data_size h /\ len (output s') = len (output s) + 1) /\
  (forall copy_length s,
     len (output s) + fst (clamp_copy_length h copy_length s) <= data_size h) /\
  (forall offset copy_length s k out_k,
     len (output s) <= data_size h ->
     (k <= Z.to_nat (fst (clamp_copy_length h copy_length s)))%nat ->
     copy_back (output s) offset k = Ok out_k ->
     len out_k <= data_size h).
Proof.
  intros Hh. pose proof (parse_header_range _ _ _ _ Hh) as [Hec Hsize].
  split.
  { intros out lg H. eapply decompress_output_bounded; eassumption. }
  split.
  { intros t s Hsteps.
    apply iterates_output_bounded in Hsteps;
      [exact Hsteps | exact Hec
      | change (len (output (init_state h special p))) with 0; lia]. }
  split.
  { intros s s' Hc Hl. apply loop_cond_true in Hc. destruct Hc as [Hc _].
    apply literal_branch_Next in Hl. destruct Hl as (b & _ & -> & _).
    rewrite len_snoc. lia. }
  split.
  { intros cl s. pose proof (clamp_copy_length_spec h cl s) as H.
    cbv zeta in H. tauto. }
  intros offset cl s k out_k Hs Hk Hcopy.
  pose proof (clamp_copy_length_spec h cl s) as H. cbv zeta in H.
  destruct H as (_ & _ & _ & _ & _ & Hfit & _).
  apply copy_back_length in Hcopy. lia.
Qed.

Lemma C8_output_bounded_witness :
  (forall out lg,
     decompress_evo_data [x00; x04; x00; x03; x41; x42; x01; x20] 0 false
     = Some (Ok (out, lg)) ->
     len out <= data_size (mkHeader 0 false 4)) /\
  (forall t s,
     iterates [x00; x04; x00; x03; x41; x42; x01; x20] (mkHeader 0 false 4)
              false (init_state (mkHeader 0 false 4) false 3) t s ->
     len (output s) <= data_size (mkHeader 0 false 4)) /\
  (forall s s',
     loop_cond [x00; x04; x00; x03; x41; x42; x01; x20] (mkHeader 0 false 4) s
     = true ->
     literal_branch [x00; x04; x00; x03; x41; x42; x01; x20] false s = Next s' ->
     len (output s) < data_size (mkHeader 0 false 4) /\
     len (output s') = len (output s) + 1) /\
  (forall copy_length s,
     len (output s) + fst (clamp_copy_length (mkHeader 0 false 4) copy_length s)
     <= data_size (mkHeader 0 false 4)) /\
  (forall offset copy_length s k out_k,
     len (output s) <= data_size (mkHeader 0 false 4) ->
     (k <= Z.to_nat (fst (clamp_copy_length (mkHeader 0 false 4) copy_length s)))%nat ->
     copy_back (output s) offset k = Ok out_k ->
     len out_k <= data_size (mkHeader 0 false 4)).
Proof.
  apply (C8_output_bounded [x00; x04; x00; x03; x41; x42; x01; x20] 0 false
           (mkHeader 0 false 4) 3).
  reflexivity.
Defined.

(** C9.  The clamp of line 105 never takes effect.  The base length of a
    parsed header is at most 0x7F, so the copy length of every match
    command is at most 0x0F + 0x7F + 0xFF = 397 when it reaches the clamps;
    the first clamp then changes neither the value nor the log, and no call
    prints the warning of line 106. *)
Theorem C9_copy_length_clamp_unreachable (data : list byte) (start : Z)
    (special : bool) :
  (forall h p,
     parse_header data start = Ok (h, p) ->
     0 <= ec_value h <= 0x7F /\
     forall s offset copy_length s',
       read_match data h s = Next (offset, copy_length, s') ->
       0 <= copy_length <= 0x0F + 0x7F + 0xFF /\
       copy_length <= 397 /\ (0x2000 <? copy_length) = false /\
       forall n, In (WarnLargeCopy n) (log (snd (clamp_copy_length h copy_length s'))) ->
                 In (WarnLargeCopy n) (log s')) /\
  (forall out lg,
     decompress_evo_data data start special = Some (Ok (out, lg)) ->
     forall n, ~ In (WarnLargeCopy n) lg).
Proof.
  split.
  - intros h p Hh. pose proof (parse_header_range _ _ _ _ Hh) as [Hec _].
    split; [lia|]. intros s offset cl s' Hr.
    apply read_match_bounds in Hr; [|exact Hec].
    destruct Hr as (_ & Hcl & _).
    split; [lia|]. split; [lia|]. split; [apply Z.ltb_ge; lia|].
    intros n Hin.
    pose proof (clamp_copy_length_spec h cl s') as H. cbv zeta in H.
    destruct H as (_ & _ & _ & _ & _ & _ & Hlog).
    destruct (Hlog ltac:(lia)) as [Hl | Hl]; rewrite Hl in Hin; [exact Hin|].
    apply in_app_or in Hin. destruct Hin as [Hin | [Hin | []]];
      [exact Hin | discriminate].
  - intros out lg H n Hin. apply decompress_log_printable in H.
    rewrite Forall_forall in H. apply H in Hin. discriminate.
Qed.

(** C10.  The [break] of line 117 is never taken.  The offset of a match
    command is at least 1, so with an empty output the test of line 100
    holds and the command is skipped before line 115 is reached; no
    iteration ends in that [break], and no call prints the error of
    line 116. *)
Theorem C10_empty_buffer_copy_unreachable (data : list byte) (start : Z)
    (special : bool) :
  (forall h s offset copy_length s',
     read_match data h s = Next (offset, copy_length, s') -> 1 <= offset) /\
  (forall h offset copy_length s,
     1 <= offset -> output s = [] ->
     apply_match h special offset copy_length s
     = Continue (emit (ErrInvalidOffset offset (pos s - 2) 0) s)) /\
  (forall h offset copy_length s s',
     1 <= offset -> apply_match h special offset copy_length s <> Break s') /\
  (forall h s s',
     loop_body data h special s = Break s' -> ~ In ErrEmptyOutput (log s) ->
     ~ In ErrEmptyOutput (log s')) /\
  (forall out lg,
     decompress_evo_data data start special = Some (Ok (out, lg)) ->
     ~ In ErrEmptyOutput lg).
Proof.
  split.
  { intros h s offset cl s' Hr. apply read_match_Next in Hr.
    destruct Hr as (lo & hi & _ & _ & Hr). cbv zeta in Hr.
    destruct Hr as (-> & _).
    pose proof (land_0FFF_range (byte_val lo + Z.shiftl (byte_val hi) 8)). lia. }
  split.
  { intros h offset cl s Hoff Hout. unfold apply_match. rewrite Hout.
    change (len (@nil byte)) with 0.
    replace (0 <? offset) with true by (symmetry; apply Z.ltb_lt; lia).
    reflexivity. }
  split.
  { intros h offset cl s s' Hoff Hb. apply apply_match_Break in Hb. lia. }
  split.
  { intros h s s' Hb Hnot Hin. apply body_Break_facts in Hb.
    destruct Hb as (_ & d & Hl & Hd). rewrite Hl in Hin.
    apply in_app_or in Hin. destruct Hin as [Hin | [Hin | []]]; [auto|].
    subst d.
    destruct Hd as [Hd | [(q & Hd) | [(q & Hd) | (q & Hd)]]]; discriminate. }
  intros out lg H Hin. apply decompress_log_printable in H.
  rewrite Forall_forall in H. apply H in Hin. discriminate.
Qed.

(** * Further properties of the decoder *)

(** ** Where the bytes of the output come from *)

Lemma getitem_In {A : Type} (l : list A) (i : Z) (x : A) :
  getitem l i = Ok x -> In x l.
Proof.
  unfold getitem. intros H.
  destruct (_ || _); [discriminate|].
  destruct (nth_error l _) as [y|] eqn:Hnth; [|discriminate].
  injection H as <-. eapply nth_error_In. exact Hnth.
Qed.

Lemma copy_back_extends (n : nat) :
  forall out offset out',
    copy_back out offset n = Ok out' ->
    exists ext, out' = out ++ ext /\ length ext = n /\
                Forall (fun b => In b out) ext.
Proof.
  induction n as [|n IH]; intros out offset out' H.
  - injection H as <-. exists []. rewrite app_nil_r. repeat split. constructor.
  - cbn [copy_back] in H.
    destruct (getitem out (len out - offset)) as [b|] eqn:Hb; [|discriminate].
    cbn [rbind] in H. apply IH in H. destruct H as (ext & -> & Hlen & Hin).
    exists (b :: ext). rewrite <- app_assoc. split; [reflexivity|].
    split; [simpl; lia|]. apply getitem_In in Hb. constructor; [exact Hb|].
    eapply Forall_impl; [|exact Hin]. intros x Hx.
    apply in_app_or in Hx. destruct Hx as [Hx | [<- | []]]; assumption.
Qed.

Section Growth.

Variable compressed_data : list byte.
Variable hdr : header.
Variable special_mode : bool.

Local Abbreviation body := (loop_body compressed_data hdr special_mode).
Local Abbreviation cond := (loop_cond compressed_data hdr).
Local Abbreviation steps := (iterates compressed_data hdr special_mode).

(** A command that runs to its end appends bytes, each of them read from
    the input or already in the output, and ends with the cursor at most at
    the end of the input. *)
Lemma body_Next_extends (s s' : state) :
  body s = Next s' ->
  pos s' <= len compressed_data /\
  exists ext,
    output s' = output s ++ ext /\
    Forall (fun b => In b compressed_data \/ In b (output s)) ext.
Proof.
  intros H. apply loop_body_Next in H. destruct H as (_ & bit & s1 & Hbit & H).
  apply read_command_bit_Next in Hbit. destruct Hbit as (Ho1 & _).
  destruct H as [(_ & H) | (_ & H)].
  - apply match_branch_Next in H. destruct H as (offset & cl & s2 & Hr & Ha).
    apply read_match_Next in Hr. destruct Hr as (lo & hi & _ & Hhi & Hr).
    cbv zeta in Hr. destruct Hr as (_ & Ho2 & _ & _ & Hcases).
    apply apply_match_Next in Ha. destruct Ha as (_ & Hcopy & Hp & _).
    split.
    + apply getitem_Ok_index in Hhi.
      destruct Hcases as [(_ & _ & extra & He & _ & Hp2) | (_ & _ & Hp2)].
      * apply getitem_Ok_index in He. lia.
      * lia.
    + apply copy_back_extends in Hcopy. destruct Hcopy as (ext & Hext & _ & Hin).
      exists ext. rewrite Hext, Ho2, Ho1. split; [reflexivity|].
      eapply Forall_impl; [|exact Hin]. intros b Hb. right. congruence.
  - apply literal_branch_Next in H. destruct H as (b & Hb & Ho2 & Hp & _).
    split.
    + apply getitem_Ok_index in Hb. lia.
    + exists [b]. rewrite Ho2, Ho1. split; [reflexivity|].
      constructor; [|constructor]. left. eapply getitem_In. exact Hb.
Qed.

Lemma body_Continue_pos_end (s s' : state) :
  body s = Continue s' -> pos s' <= len compressed_data.
Proof.
  intros H. apply loop_body_Continue in H. destruct H as (_ & s1 & _ & H).
  apply match_branch_Continue in H. destruct H as (offset & cl & s2 & Hr & Ha).
  apply read_match_Next in Hr. destruct Hr as (lo & hi & _ & Hhi & Hr).
  cbv zeta in Hr. destruct Hr as (_ & _ & _ & _ & Hcases).
  apply apply_match_Continue in Ha. destruct Ha as (_ & ->). proj_simpl.
  apply getitem_Ok_index in Hhi.
  destruct Hcases as [(_ & _ & extra & He & _ & Hp2) | (_ & _ & Hp2)].
  - apply getitem_Ok_index in He. lia.
  - lia.
Qed.

Hypothesis ec_range : 0 <= ec_value hdr <= 127.

Lemma iterates_extends (s : state) (t : list command_kind) (s' : state) :
  steps s t s' ->
  exists ext,
    output s' = output s ++ ext /\
    Forall (fun b => In b compressed_data \/ In b (output s)) ext.
Proof.
  intros Hsteps.
  induction Hsteps as [s | s s1 s' t Hc Hb _ IH | s s1 s' t Hc Hb _ IH].
  - exists []. rewrite app_nil_r. split; [reflexivity | constructor].
  - apply body_Next_extends in Hb. destruct Hb as (_ & e1 & Ho1 & Hin1).
    destruct IH as (e2 & Ho2 & Hin2).
    exists (e1 ++ e2). rewrite Ho2, Ho1, app_assoc. split; [reflexivity|].
    apply Forall_app. split; [exact Hin1|].
    eapply Forall_impl; [|exact Hin2]. intros b [Hb | Hb]; [left; exact Hb|].
    rewrite Ho1 in Hb. apply in_app_or in Hb. destruct Hb as [Hb | Hb].
    + right. exact Hb.
    + rewrite Forall_forall in Hin1. apply Hin1. exact Hb.
  - apply body_Continue_facts in Hb; [|exact ec_range].
    destruct Hb as (_ & Ho1 & _). rewrite Ho1 in IH. exact IH.
Qed.

(** The cursor moves forward by at least one byte per iteration and stays
    within the input. *)
Lemma iterates_pos (s : state) (t : list command_kind) (s' : state) :
  steps s t s' ->
  pos s + Z.of_nat (length t) <= pos s' /\
  (pos s <= len compressed_data -> pos s' <= len compressed_data).
Proof.
  intros Hsteps.
  induction Hsteps as [s | s s1 s' t Hc Hb Hrest IH | s s1 s' t Hc Hb Hrest IH].
  - cbn [length]. lia.
  - pose proof (body_Next_extends _ _ Hb) as (Hend & _).
    apply body_Next_facts in Hb; [|exact ec_range | exact Hc].
    cbn [length]. lia.
  - pose proof (body_Continue_pos_end _ _ Hb) as Hend.
    apply body_Continue_facts in Hb; [|exact ec_range].
    cbn [length]. lia.
Qed.

End Growth.

(** ** Runs are determined by their start *)

Lemma iterates_reaches_end (data : list byte) (h : header) (special : bool)
    (s0 : state) (t1 : list command_kind) (s1 : state) :
  iterates data h special s0 t1 s1 ->
  forall t2 s2,
    iterates data h special s0 t2 s2 ->
    loop_cond data h s2 = false \/
    (exists r, loop_body data h special s2 = Break r) ->
    exists t', iterates data h special s1 t' s2 /\ t2 = t1 ++ t'.
Proof.
  intros H1.
  induction H1 as [s | s sa s1 t Hc Hb _ IH | s sa s1 t Hc Hb _ IH];
    intros t2 s2 H2 Hend.
  - exists t2. split; [exact H2 | reflexivity].
  - inversion H2 as [x | x sb y t' Hc' Hb' Hrest | x sb y t' Hc' Hb' Hrest]; subst.
    + destruct Hend as [Hend | (r & Hend)]; congruence.
    + assert (sb = sa) by congruence. subst sb.
      destruct (IH _ _ Hrest Hend) as (t'' & Hs & ->).
      exists t''. split; [exact Hs | reflexivity].
    + congruence.
  - inversion H2 as [x | x sb y t' Hc' Hb' Hrest | x sb y t' Hc' Hb' Hrest]; subst.
    + destruct Hend as [Hend | (r & Hend)]; congruence.
    + congruence.
    + assert (sb = sa) by congruence. subst sb.
      destruct (IH _ _ Hrest Hend) as (t'' & Hs & ->).
      exists t''. split; [exact Hs | reflexivity].
Qed.

(** X1.  Every byte of the returned output is a byte of the input buffer:
    literals are copied from the input and back-references copy bytes that
    are already in the output. *)
Theorem X1_output_bytes_from_input (data : list byte) (start : Z)
    (special : bool) (out : list byte) (lg : list diag) :
  decompress_evo_data data start special = Some (Ok (out, lg)) ->
  Forall (fun b => In b data) out.
Proof.
  intros H. apply decompress_Ok_run in H.
  destruct H as (h & p & t & s_last & r & Hh & Hsteps & Hend & Hf).
  pose proof (parse_header_range _ _ _ _ Hh) as [Hec _].
  apply iterates_extends in Hsteps; [|exact Hec].
  destruct Hsteps as (ext & Hout & Hin). cbn [init_state output app] in Hout, Hin.
  pose proof (finish_output h r) as Ho. rewrite Hf in Ho. cbn [fst] in Ho.
  assert (Hr : output r = ext).
  { destruct Hend as [(_ & ->) | (_ & Hb)]; [exact Hout|].
    apply body_Break_facts in Hb. destruct Hb as (-> & _). exact Hout. }
  rewrite Ho, Hr. eapply Forall_impl; [|exact Hin].
  intros b [Hb | []]. exact Hb.
Qed.

Lemma X1_output_bytes_from_input_witness :
  Forall (fun b => In b [x00; x04; x00; x03; x41; x42; x01; x20])
         [x41; x42; x41; x42].
Proof.
  apply (X1_output_bytes_from_input
           [x00; x04; x00; x03; x41; x42; x01; x20] 0 false
           [x41; x42; x41; x42]
           [InfoControlByte 0; InfoSpecialFlag false; InfoDataSize 4]).
  vm_compute. reflexivity.
Defined.

(** X2.  The output is append-only: what the output holds at any point of
    the loop is a prefix of what the call returns. *)
Theorem X2_output_append_only (data : list byte) (start : Z) (special : bool)
    (h : header) (p : Z) (out : list byte) (lg : list diag) :
  parse_header data start = Ok (h, p) ->
  decompress_evo_data data start special = Some (Ok (out, lg)) ->
  forall t s,
    iterates data h special (init_state h special p) t s ->
    exists ext, out = output s ++ ext.
Proof.
  intros Hh H t s Hs. apply decompress_Ok_run in H.
  destruct H as (h' & p' & t_last & s_last & r & Hh' & Hsteps & Hend & Hf).
  rewrite Hh in Hh'. injection Hh' as <- <-.
  pose proof (parse_header_range _ _ _ _ Hh) as [Hec _].
  pose proof (finish_output h r) as Ho. rewrite Hf in Ho. cbn [fst] in Ho.
  assert (Hr : output r = output s_last).
  { destruct Hend as [(_ & ->) | (_ & Hb)]; [reflexivity|].
    apply body_Break_facts in Hb. destruct Hb as (-> & _). reflexivity. }
  destruct (iterates_reaches_end _ _ _ _ _ _ Hs _ _ Hsteps) as (t' & Hrest & _).
  { destruct Hend as [(Hc & _) | (_ & Hb)]; [left; exact Hc | right; eauto]. }
  apply iterates_extends in Hrest; [|exact Hec].
  destruct Hrest as (ext & Hext & _). exists ext. congruence.
Qed.

Lemma X2_output_append_only_witness :
  exists ext,
    [x41; x42; x41; x42]
    = output (mkState [x41] 5 1 1 None
                [InfoControlByte 0; InfoSpecialFlag false; InfoDataSize 4])
      ++ ext.
Proof.
  apply (X2_output_append_only
           [x00; x04; x00; x03; x41; x42; x01; x20] 0 false
           (mkHeader 0 false 4) 3 [x41; x42; x41; x42]
           [InfoControlByte 0; InfoSpecialFlag false; InfoDataSize 4]
           eq_refl eq_refl [Emitted]).
  eapply iterates_emitted; [reflexivity | reflexivity | apply iterates_done].
Defined.

(** X3.  The cursor never passes the end of the input, and the loop runs at
    most one iteration per input byte after the header: after [n]
    iterations the cursor is at least [n] bytes past the header. *)
Theorem X3_cursor_within_input (data : list byte) (start : Z) (special : bool)
    (h : header) (p : Z) :
  parse_header data start = Ok (h, p) ->
  p = start + 3 /\ p <= len data /\
  forall t s,
    iterates data h special (init_state h special p) t s ->
    p + Z.of_nat (length t) <= pos s <= len data.
Proof.
  intros Hh. pose proof (parse_header_range _ _ _ _ Hh) as [Hec _].
  pose proof Hh as Hh'. apply parse_header_inv in Hh'.
  destruct Hh' as (c & lo & hi & _ & _ & Hhi & Hp & _).
  apply getitem_Ok_index in Hhi.
  split; [exact Hp|]. split; [lia|]. intros t s Hs.
  apply iterates_pos in Hs; [|exact Hec]. cbn [init_state pos] in Hs. lia.
Qed.

Lemma X3_cursor_within_input_witness :
  3 = 0 + 3 /\ 3 <= len [x00; x04; x00; x03; x41; x42; x01; x20] /\
  forall t s,
    iterates [x00; x04; x00; x03; x41; x42; x01; x20] (mkHeader 0 false 4) false
             (init_state (mkHeader 0 false 4) false 3) t s ->
    3 + Z.of_nat (length t) <= pos s
    <= len [x00; x04; x00; x03; x41; x42; x01; x20].
Proof.
  apply (X3_cursor_within_input
           [x00; x04; x00; x03; x41; x42; x01; x20] 0 false
           (mkHeader 0 false 4) 3).
  reflexivity.
Defined.

(** ** The command bits *)

Section Bits.

Variable compressed_data : list byte.
Variable hdr : header.
Variable special_mode : bool.

Lemma read_command_bit_bits (s : state) (bit : Z) (s' : state) :
  read_command_bit compressed_data s = Next (bit, s') ->
  (bit_count s = 8 /\ pos s' = pos s + 1 /\
   exists b, getitem compressed_data (pos s) = Ok b /\
             bit = Z.land (byte_val b) 1 /\ bit_count s' = 1 /\
             command_byte s' = Z.shiftr (byte_val b) 1) \/
  (bit_count s <> 8 /\ pos s' = pos s /\
   bit = Z.land (command_byte s) 1 /\ bit_count s' = bit_count s + 1 /\
   command_byte s' = Z.shiftr (command_byte s) 1).
Proof.
  unfold read_command_bit. intros H.
  destruct (bit_count s =? 8) eqn:Hbc.
  - apply Z.eqb_eq in Hbc. left.
    destruct (getitem compressed_data (pos s)) as [b|] eqn:Hb; [|discriminate].
    cbn [lift bind] in H. cbv zeta in H. proj_simpl.
    apply Next_inj, pair_equal_spec in H. destruct H as [<- <-]. proj_simpl.
    split; [exact Hbc|]. split; [reflexivity|]. exists b. repeat split.
  - apply Z.eqb_neq in Hbc. right.
    cbn [bind] in H. cbv zeta in H. proj_simpl.
    apply Next_inj, pair_equal_spec in H. destruct H as [<- <-]. proj_simpl.
    repeat split. exact Hbc.
Qed.

Lemma decrement_special_bits (s s' : state) :
  decrement_special special_mode s = Next s' ->
  bit_count s' = bit_count s /\ command_byte s' = command_byte s.
Proof.
  unfold decrement_special. intros H. destruct special_mode.
  - destruct (special_counter s); [|discriminate].
    injection H as <-. split; reflexivity.
  - injection H as <-. split; reflexivity.
Qed.

Lemma literal_branch_bits (s s' : state) :
  literal_branch compressed_data special_mode s = Next s' ->
  bit_count s' = bit_count s /\ command_byte s' = command_byte s.
Proof.
  unfold literal_branch. intros H.
  destruct (len compressed_data <=? pos s); [discriminate|].
  destruct (getitem compressed_data (pos s)) as [b|]; [|discriminate].
  cbn [lift bind] in H. apply decrement_special_bits in H. exact H.
Qed.

Lemma clamp_copy_length_bits (copy_length : Z) (s : state) :
  bit_count (snd (clamp_copy_length hdr copy_length s)) = bit_count s /\
  command_byte (snd (clamp_copy_length hdr copy_length s)) = command_byte s.
Proof.
  unfold clamp_copy_length.
  destruct (0x2000 <? copy_length); proj_simpl;
    match goal with
    | |- context [if ?c then _ else _] => destruct c
    end; split; reflexivity.
Qed.

Lemma apply_match_bits (offset copy_length : Z) (s s' : state) :
  apply_match hdr special_mode offset copy_length s = Next s' \/
  apply_match hdr special_mode offset copy_length s = Continue s' ->
  bit_count s' = bit_count s /\ command_byte s' = command_byte s.
Proof.
  intros [H | H].
  - unfold apply_match in H.
    destruct (len (output s) <? offset); [discriminate|].
    pose proof (clamp_copy_length_bits copy_length s) as Hb.
    destruct (clamp_copy_length hdr copy_length s) as [cl s1]. proj_simpl.
    destruct (len (output s1) =? 0); [discriminate|].
    destruct (copy_back (output s1) offset (Z.to_nat cl)); [|discriminate].
    cbn [lift bind] in H. apply decrement_special_bits in H. proj_simpl.
    destruct H, Hb. split; congruence.
  - apply apply_match_Continue in H. destruct H as (_ & ->). split; reflexivity.
Qed.

(** An iteration that stays in the loop takes its command bit from the low
    end of the command byte and shifts the byte right; it fetches a new
    command byte exactly when eight bits were taken from the last one. *)
Lemma body_bits (s s' : state) :
  loop_body compressed_data hdr special_mode s = Next s' \/
  loop_body compressed_data hdr special_mode s = Continue s' ->
  (bit_count s = 8 /\
   exists b, getitem compressed_data (pos s) = Ok b /\ bit_count s' = 1 /\
             command_byte s' = Z.shiftr (byte_val b) 1) \/
  (bit_count s <> 8 /\ bit_count s' = bit_count s + 1 /\
   command_byte s' = Z.shiftr (command_byte s) 1).
Proof.
  intros H.
  assert (Hsplit : exists bit s1,
             read_command_bit compressed_data s = Next (bit, s1) /\
             bit_count s' = bit_count s1 /\ command_byte s' = command_byte s1).
  { destruct H as [H | H].
    - apply loop_body_Next in H. destruct H as (_ & bit & s1 & Hbit & H).
      exists bit, s1. split; [exact Hbit|].
      destruct H as [(_ & H) | (_ & H)].
      + apply match_branch_Next in H. destruct H as (offset & cl & s2 & Hr & Ha).
        apply read_match_bits in Hr.
        pose proof (apply_match_bits offset cl s2 s' (or_introl Ha)) as Hb.
        destruct Hr, Hb. split; congruence.
      + apply literal_branch_bits in H. exact H.
    - apply loop_body_Continue in H. destruct H as (_ & s1 & Hbit & H).
      exists 0, s1. split; [exact Hbit|].
      apply match_branch_Continue in H. destruct H as (offset & cl & s2 & Hr & Ha).
      apply read_match_bits in Hr.
      pose proof (apply_match_bits offset cl s2 s' (or_intror Ha)) as Hb.
      destruct Hr, Hb. split; congruence. }
  destruct Hsplit as (bit & s1 & Hbit & Hbc & Hcb).
  apply read_command_bit_bits in Hbit.
  destruct Hbit as [(H8 & _ & b & Hb & _ & Hbc1 & Hcb1) | (H8 & _ & _ & Hbc1 & Hcb1)].
  - left. split; [exact H8|]. exists b. split; [exact Hb|]. split; congruence.
  - right. split; [exact H8|]. split; congruence.
Qed.

Lemma shiftr_1_bound (x n : Z) :
  0 <= n -> 0 <= x < 2 ^ (n + 1) -> 0 <= Z.shiftr x 1 < 2 ^ n.
Proof.
  intros Hn Hx. rewrite Z.shiftr_div_pow2 by lia. change (2 ^ 1) with 2.
  rewrite Z.pow_add_r in Hx by lia. change (2 ^ 1) with 2 in Hx.
  split; [apply Z.div_pos; lia|]. apply Z.div_lt_upper_bound; lia.
Qed.

Lemma iterates_bits (s : state) (t : list command_kind) (s' : state) :
  iterates compressed_data hdr special_mode s t s' ->
  1 <= bit_count s <= 8 ->
  0 <= command_byte s < 2 ^ (8 - bit_count s) ->
  1 <= bit_count s' <= 8 /\
  0 <= command_byte s' < 2 ^ (8 - bit_count s') /\
  exists k, 0 <= k /\
            bit_count s' = bit_count s + Z.of_nat (length t) - 8 * k.
Proof.
  intros Hsteps.
  assert (Hstep : forall x y,
             loop_body compressed_data hdr special_mode x = Next y \/
             loop_body compressed_data hdr special_mode x = Continue y ->
             1 <= bit_count x <= 8 ->
             0 <= command_byte x < 2 ^ (8 - bit_count x) ->
             1 <= bit_count y <= 8 /\
             0 <= command_byte y < 2 ^ (8 - bit_count y) /\
             (bit_count y = bit_count x + 1 \/
              bit_count y = bit_count x + 1 - 8)).
  { intros x y Hb Hbc Hcb. apply body_bits in Hb.
    destruct Hb as [(H8 & b & _ & Hbc1 & Hcb1) | (H8 & Hbc1 & Hcb1)].
    - rewrite Hbc1, Hcb1. split; [lia|]. split; [|right; lia].
      change (8 - 1) with 7. apply shiftr_1_bound; [lia|].
      pose proof (byte_val_range b). change (2 ^ (7 + 1)) with 256. lia.
    - rewrite Hbc1, Hcb1. split; [lia|]. split; [|left; lia].
      replace (8 - (bit_count x + 1)) with (7 - bit_count x) by lia.
      apply shiftr_1_bound; [lia|].
      replace (7 - bit_count x + 1) with (8 - bit_count x) by lia. exact Hcb. }
  induction Hsteps as [s | s s1 s' t Hc Hb _ IH | s s1 s' t Hc Hb _ IH];
    intros Hbc Hcb.
  - split; [exact Hbc|]. split; [exact Hcb|]. exists 0. cbn [length]. lia.
  - destruct (Hstep _ _ (or_introl Hb) Hbc Hcb) as (Hbc1 & Hcb1 & Hrel).
    destruct (IH Hbc1 Hcb1) as (Hbc' & Hcb' & k & Hk & Hrel').
    split; [exact Hbc'|]. split; [exact Hcb'|].
    destruct Hrel as [Hrel | Hrel];
      [exists k | exists (k + 1)]; cbn [length]; lia.
  - destruct (Hstep _ _ (or_intror Hb) Hbc Hcb) as (Hbc1 & Hcb1 & Hrel).
    destruct (IH Hbc1 Hcb1) as (Hbc' & Hcb' & k & Hk & Hrel').
    split; [exact Hbc'|]. split; [exact Hcb'|].
    destruct Hrel as [Hrel | Hrel];
      [exists k | exists (k + 1)]; cbn [length]; lia.
Qed.

End Bits.

(** X4.  Command bits are taken from the low end of a command byte, one
    per iteration, and a new command byte is fetched exactly when eight
    bits were taken from the last one.  So after [n] iterations
    [bit_count] is [n] brought into the range 1 to 8 by subtracting a
    multiple of 8 (it is 8 before the first iteration), and the shifted
    command byte holds only the [8 - bit_count] bits not yet used. *)
Theorem X4_command_bits (data : list byte) (h : header) (special : bool)
    (p : Z) :
  (forall s s',
     loop_body data h special s = Next s' \/
     loop_body data h special s = Continue s' ->
     (bit_count s = 8 /\
      exists b, getitem data (pos s) = Ok b /\ bit_count s' = 1 /\
                command_byte s' = Z.shiftr (byte_val b) 1) \/
     (bit_count s <> 8 /\ bit_count s' = bit_count s + 1 /\
      command_byte s' = Z.shiftr (command_byte s) 1)) /\
  (forall s bit s',
     read_command_bit data s = Next (bit, s') ->
     bit = (if bit_count s =? 8
            then match getitem data (pos s) with
                 | Ok b => Z.land (byte_val b) 1
                 | Raise _ => 0
                 end
            else Z.land (command_byte s) 1)) /\
  (forall t s,
     iterates data h special (init_state h special p) t s ->
     1 <= bit_count s <= 8 /\
     0 <= command_byte s < 2 ^ (8 - bit_count s) /\
     exists k, 0 <= k /\ bit_count s = 8 + Z.of_nat (length t) - 8 * k).
Proof.
  split; [intros s s' H; eapply body_bits; exact H|].
  split.
  - intros s bit s' H. apply read_command_bit_bits in H.
    destruct H as [(H8 & _ & b & Hb & Hbit & _) | (H8 & _ & Hbit & _)].
    + rewrite H8, Hb. exact Hbit.
    + apply Z.eqb_neq in H8. rewrite H8. exact Hbit.
  - intros t s Hs. apply iterates_bits in Hs.
    + exact Hs.
    + cbn [init_state bit_count]. lia.
    + cbn [init_state bit_count command_byte]. change (2 ^ (8 - 8)) with 1. lia.
Qed.

(** ** What a call prints *)

Lemma iterates_log (data : list byte) (h : header) (special : bool)
    (s : state) (t : list command_kind) (s' : state) :
  0 <= ec_value h <= 127 ->
  iterates data h special s t s' ->
  exists ms, log s' = log s ++ ms /\ Forall (fun d => loop_message d = true) ms.
Proof.
  intros Hec Hsteps.
  induction Hsteps as [s | s s1 s' t Hc Hb _ IH | s s1 s' t Hc Hb _ IH].
  - exists []. rewrite app_nil_r. split; [reflexivity | constructor].
  - apply body_Next_facts in Hb; [|exact Hec | exact Hc].
    destruct Hb as (_ & _ & _ & _ & _ & Hl). destruct IH as (ms & Hms & Hall).
    destruct Hl as [Hl | Hl]; rewrite Hl in Hms.
    + exists ms. split; assumption.
    + exists (WarnExceedsDataSize :: ms). rewrite Hms, <- app_assoc.
      split; [reflexivity | constructor; [reflexivity | exact Hall]].
  - apply body_Continue_facts in Hb; [|exact Hec].
    destruct Hb as (_ & _ & _ & offset & _ & Hl). destruct IH as (ms & Hms & Hall).
    rewrite Hl in Hms. eexists (_ :: ms). rewrite Hms, <- app_assoc.
    split; [reflexivity | constructor; [reflexivity | exact Hall]].
Qed.

(** The shape of the log of a call that returns. *)
Lemma decompress_log_shape (data : list byte) (start : Z) (special : bool)
    (out : list byte) (lg : list diag) :
  decompress_evo_data data start special = Some (Ok (out, lg)) ->
  exists h p ms,
    parse_header data start = Ok (h, p) /\
    Forall (fun d => loop_message d = true) ms /\
    ((len out = data_size h /\ lg = header_messages h ++ ms) \/
     (len out < data_size h /\
      exists stop,
        (stop = [] \/ exists d, stop = [d] /\ stop_message d = true) /\
        lg = header_messages h ++ ms ++ stop
             ++ [WarnIncomplete (data_size h) (len out)])).
Proof.
  intros H. pose proof H as Hrun. apply decompress_Ok_run in Hrun.
  destruct Hrun as (h & p & t & s_last & r & Hh & Hsteps & Hend & Hf).
  pose proof (parse_header_range _ _ _ _ Hh) as [Hec _].
  pose proof (decompress_output_bounded _ _ _ _ _ _ _ Hh H) as Hle.
  pose proof (iterates_log _ _ _ _ _ _ Hec Hsteps) as (ms & Hms & Hall).
  change (log (init_state h special p)) with (header_messages h) in Hms.
  exists h, p, ms. split; [exact Hh|]. split; [exact Hall|].
  unfold finish in Hf.
  destruct Hend as [(Hc & ->) | (Hc & Hb)].
  - destruct (len (output s_last) <? data_size h) eqn:Hlt;
      injection Hf as <- <-.
    + apply Z.ltb_lt in Hlt. right. split; [exact Hlt|].
      exists []. split; [left; reflexivity|]. rewrite Hms, <- app_assoc.
      reflexivity.
    + apply Z.ltb_ge in Hlt. left. split; [lia | exact Hms].
  - apply loop_cond_true in Hc. destruct Hc as [Hlt _].
    apply body_Break_facts in Hb. destruct Hb as (Ho & d & Hl & Hd).
    rewrite Ho in Hf.
    replace (len (output s_last) <? data_size h) with true in Hf
      by (symmetry; apply Z.ltb_lt; exact Hlt).
    injection Hf as <- <-. right. split; [exact Hlt|].
    exists [d]. split.
    + right. exists d. split; [reflexivity|].
      destruct Hd as [-> | [(q & ->) | [(q & ->) | (q & ->)]]]; reflexivity.
    + rewrite Hl, Hms, <- !app_assoc. reflexivity.
Qed.

(** X5.  The shape of what a call prints.  After the three header lines
    come the messages of the iterations that stayed in the loop
    (invalid-offset errors and copy-limit warnings).  If the output reached
    the size of the header nothing follows.  Otherwise the output is
    shorter than the size, at most one stop message follows (the
    early-termination notice or a truncation error), and the
    incomplete-decompression warning, with the size and the length of the
    output, is the last line.  So the warning is printed exactly when the
    returned output is shorter than the size of the header. *)
Theorem X5_log_shape (data : list byte) (start : Z) (special : bool)
    (h : header) (p : Z) (out : list byte) (lg : list diag) :
  parse_header data start = Ok (h, p) ->
  decompress_evo_data data start special = Some (Ok (out, lg)) ->
  (exists ms,
     Forall (fun d => loop_message d = true) ms /\
     ((len out = data_size h /\ lg = header_messages h ++ ms) \/
      (len out < data_size h /\
       exists stop,
         (stop = [] \/ exists d, stop = [d] /\ stop_message d = true) /\
         lg = header_messages h ++ ms ++ stop
              ++ [WarnIncomplete (data_size h) (len out)]))) /\
  ((exists a b, In (WarnIncomplete a b) lg) <-> len out < data_size h) /\
  (forall a b, In (WarnIncomplete a b) lg -> a = data_size h /\ b = len out).
Proof.
  intros Hh H.
  pose proof (decompress_output_bounded _ _ _ _ _ _ _ Hh H) as Hle.
  apply decompress_log_shape in H.
  destruct H as (h' & p' & ms & Hh' & Hall & Hshape).
  rewrite Hh in Hh'. injection Hh' as <- <-.
  assert (Hms : forall a b, ~ In (WarnIncomplete a b) (header_messages h ++ ms)).
  { intros a b Hin. apply in_app_or in Hin. destruct Hin as [Hin | Hin].
    - cbn in Hin. intuition discriminate.
    - rewrite Forall_forall in Hall. apply Hall in Hin. discriminate. }
  split; [exists ms; split; [exact Hall | exact Hshape]|].
  destruct Hshape as [(Heq & ->) | (Hlt & stop & Hstop & ->)].
  - split.
    + split; [intros (a & b & Hin); exfalso; eapply Hms; exact Hin | lia].
    + intros a b Hin. exfalso. eapply Hms. exact Hin.
  - assert (Hin_inv : forall a b,
               In (WarnIncomplete a b)
                  (header_messages h ++ ms ++ stop
                   ++ [WarnIncomplete (data_size h) (len out)]) ->
               a = data_size h /\ b = len out).
    { intros a b Hin.
      apply in_app_or in Hin. destruct Hin as [Hin | Hin].
      { exfalso. apply (Hms a b). apply in_or_app. left. exact Hin. }
      apply in_app_or in Hin. destruct Hin as [Hin | Hin].
      { exfalso. apply (Hms a b). apply in_or_app. right. exact Hin. }
      apply in_app_or in Hin. destruct Hin as [Hin | [Hin | []]].
      - destruct Hstop as [-> | (d & -> & Hd)]; [destruct Hin|].
        destruct Hin as [Hin | []]. subst d. discriminate.
      - injection Hin as <- <-. split; reflexivity. }
    split; [|exact Hin_inv].
    split; [intros _; exact Hlt|]. intros _.
    exists (data_size h), (len out).
    apply in_or_app. right. apply in_or_app. right.
    apply in_or_app. right. left. reflexivity.
Qed.

Lemma X5_log_shape_witness :
  (exists ms,
     Forall (fun d => loop_message d = true) ms /\
     ((len (@nil byte) = data_size (mkHeader 0 false 4) /\
       [InfoControlByte 0; InfoSpecialFlag false; InfoDataSize 4;
        ErrEndOfInput 4; WarnIncomplete 4 0]
       = header_messages (mkHeader 0 false 4) ++ ms) \/
      (len (@nil byte) < data_size (mkHeader 0 false 4) /\
       exists stop,
         (stop = [] \/ exists d, stop = [d] /\ stop_message d = true) /\
         [InfoControlByte 0; InfoSpecialFlag false; InfoDataSize 4;
          ErrEndOfInput 4; WarnIncomplete 4 0]
         = header_messages (mkHeader 0 false 4) ++ ms ++ stop
           ++ [WarnIncomplete (data_size (mkHeader 0 false 4))
                              (len (@nil byte))]))) /\
  ((exists a b,
      In (WarnIncomplete a b)
         [InfoControlByte 0; InfoSpecialFlag false; InfoDataSize 4;
          ErrEndOfInput 4; WarnIncomplete 4 0])
   <-> len (@nil byte) < data_size (mkHeader 0 false 4)) /\
  (forall a b,
     In (WarnIncomplete a b)
        [InfoControlByte 0; InfoSpecialFlag false; InfoDataSize 4;
         ErrEndOfInput 4; WarnIncomplete 4 0] ->
     a = data_size (mkHeader 0 false 4) /\ b = len (@nil byte)).
Proof.
  apply (X5_log_shape [x00; x04; x00; x01] 0 false (mkHeader 0 false 4) 3 []
           [InfoControlByte 0; InfoSpecialFlag false; InfoDataSize 4;
            ErrEndOfInput 4; WarnIncomplete 4 0]).
  - reflexivity.
  - vm_compute. reflexivity.
Defined.

(** ** How far special mode can get *)

Lemma read_match_copy_length (data : list byte) (h : header) (s : state)
    (offset copy_length : Z) (s' : state) :
  read_match data h s = Next (offset, copy_length, s') ->
  copy_length <= max_copy_length h.
Proof.
  intros H. apply read_match_Next in H. destruct H as (lo & hi & _ & _ & H).
  cbv zeta in H. destruct H as (_ & _ & _ & _ & Hcases).
  pose proof (land_0F_range (Z.shiftr (byte_val lo + Z.shiftl (byte_val hi) 8) 12)).
  unfold max_copy_length.
  destruct Hcases as [(_ & -> & extra & _ & -> & _) | (_ & -> & _)].
  - pose proof (byte_val_range extra). lia.
  - destruct (special_flag h); lia.
Qed.

Lemma body_Next_growth (data : list byte) (h : header) (special : bool)
    (s s' : state) :
  loop_body data h special s = Next s' ->
  len (output s') <= len (output s) + Z.max 1 (max_copy_length h).
Proof.
  intros H. apply loop_body_Next in H. destruct H as (_ & bit & s1 & Hbit & H).
  apply read_command_bit_Next in Hbit. destruct Hbit as (Ho1 & _).
  destruct H as [(_ & H) | (_ & H)].
  - apply match_branch_Next in H. destruct H as (offset & cl & s2 & Hr & Ha).
    pose proof (read_match_copy_length _ _ _ _ _ _ Hr) as Hcl.
    apply read_match_Next in Hr. destruct Hr as (lo & hi & _ & _ & Hr).
    cbv zeta in Hr. destruct Hr as (_ & Ho2 & _).
    apply apply_match_Next in Ha. destruct Ha as (_ & Hcopy & _).
    pose proof (clamp_copy_length_spec h cl s2) as Hclamp. cbv zeta in Hclamp.
    destruct Hclamp as (_ & _ & _ & _ & Hle & _).
    apply copy_back_length in Hcopy. rewrite Ho2, Ho1 in Hcopy. lia.
  - apply literal_branch_Next in H. destruct H as (b & _ & Ho2 & _).
    rewrite Ho2, len_snoc, Ho1. lia.
Qed.

Lemma iterates_growth (data : list byte) (h : header) (special : bool)
    (s : state) (t : list command_kind) (s' : state) :
  0 <= ec_value h <= 127 ->
  iterates data h special s t s' ->
  len (output s') <= len (output s)
                     + emitted_count t * Z.max 1 (max_copy_length h).
Proof.
  intros Hec Hsteps.
  induction Hsteps as [s | s s1 s' t Hc Hb _ IH | s s1 s' t Hc Hb _ IH];
    cbn [emitted_count].
  - lia.
  - apply body_Next_growth in Hb. rewrite Z.mul_add_distr_r. lia.
  - apply body_Continue_facts in Hb; [|exact Hec].
    destruct Hb as (_ & Ho & _). rewrite Ho in IH. exact IH.
Qed.

Lemma special_mode_output_bound (data : list byte) (start : Z)
    (h : header) (p : Z) (out : list byte) (lg : list diag) :
  parse_header data start = Ok (h, p) ->
  decompress_evo_data data start true = Some (Ok (out, lg)) ->
  len out <= 256 * Z.max 1 (max_copy_length h).
Proof.
  intros Hh H. apply decompress_Ok_run in H.
  destruct H as (h' & p' & t & s_last & r & Hh' & Hsteps & Hend & Hf).
  rewrite Hh in Hh'. injection Hh' as <- <-.
  pose proof (parse_header_range _ _ _ _ Hh) as [Hec _].
  pose proof (iterates_growth _ _ _ _ _ _ Hec Hsteps) as Hgrow.
  change (len (output (init_state h true p))) with 0 in Hgrow.
  pose proof (iterates_special_counter _ _ _ Hec _ _ _ Hsteps eq_refl 256
                eq_refl ltac:(lia)) as (_ & Hcount).
  pose proof (finish_output h r) as Ho. rewrite Hf in Ho. cbn [fst] in Ho.
  assert (Hr : output r = output s_last).
  { destruct Hend as [(_ & ->) | (_ & Hb)]; [reflexivity|].
    apply body_Break_facts in Hb. destruct Hb as (-> & _). reflexivity. }
  rewrite Ho, Hr.
  assert (emitted_count t * Z.max 1 (max_copy_length h)
          <= 256 * Z.max 1 (max_copy_length h)).
  { apply Z.mul_le_mono_nonneg_r; lia. }
  lia.
Qed.

(** X6.  In special mode a call returns at most 256 times the longest
    possible copy: each of the at most 256 commands that run appends one
    literal or at most [0x0F + base length (+ 0xFF with extended lengths)]
    bytes.  With base length 1 and no extended lengths that is 4096
    bytes. *)
Theorem X6_special_mode_output_bound (data : list byte) (start : Z)
    (h : header) (p : Z) (out : list byte) (lg : list diag) :
  parse_header data start = Ok (h, p) ->
  decompress_evo_data data start true = Some (Ok (out, lg)) ->
  len out <= 256 * Z.max 1 (max_copy_length h) /\
  (ec_value h = 1 -> special_flag h = false -> len out <= 4096).
Proof.
  intros Hh H.
  pose proof (special_mode_output_bound _ _ _ _ _ _ Hh H) as Hbound.
  split; [exact Hbound|]. intros H1 Hflag.
  unfold max_copy_length in Hbound. rewrite H1, Hflag in Hbound.
  change (Z.max 1 (0x0F + 1 + 0)) with 16 in Hbound. lia.
Qed.

Lemma X6_special_mode_output_bound_witness :
  len (repeat x41 256) <= 256 * Z.max 1 (max_copy_length (mkHeader 0 false 4096)) /\
  (ec_value (mkHeader 0 false 4096) = 1 ->
   special_flag (mkHeader 0 false 4096) = false ->
   len (repeat x41 256) <= 4096).
Proof.
  apply (X6_special_mode_output_bound
           ([x00; x00; x10] ++ concat (repeat (xff :: repeat x41 8) 40)) 0
           (mkHeader 0 false 4096) 3 (repeat x41 256)
           [InfoControlByte 0; InfoSpecialFlag false; InfoDataSize 4096;
            SpecialCounterZero 256; WarnIncomplete 4096 256]).
  - reflexivity.
  - vm_compute. reflexivity.
Defined.

(** ** The heuristic and the header *)

Lemma control_byte_split (c : byte) :
  byte_val c
  = (if Z.land (byte_val c) 0x80 =? 0 then byte_val c
     else Z.land (byte_val c) 0x7F)
    + (if Z.land (byte_val c) 0x80 =? 0 then 0 else 0x80).
Proof. destruct c; vm_compute; reflexivity. Qed.

(** X7.  When the heuristic passes its guard it reads the same header the
    decoder reads: the size it returns is the decoder's expected size, and
    the control byte it returns is the decoder's base length plus 0x80 when
    the decoder's extended-length flag is set.  When it guesses special
    mode, the decoder's header has base length 1, no extended lengths and
    a size that is a multiple of 256, and decoding in special mode returns
    at most 4096 bytes. *)
Theorem X7_heuristic_reads_decoder_header (data : list byte) (start : Z) :
  0 <= start -> start + 3 < len data ->
  exists h guess control size,
    parse_header data start = Ok (h, start + 3) /\
    detect_decompress_parameters data start = Ok (guess, control, size) /\
    size = data_size h /\
    control = ec_value h + (if special_flag h then 0x80 else 0) /\
    (guess = true ->
     ec_value h = 1 /\ special_flag h = false /\ data_size h mod 256 = 0 /\
     forall out lg,
       decompress_evo_data data start true = Some (Ok (out, lg)) ->
       len out <= 4096).
Proof.
  intros H0 Hlen.
  destruct (getitem_in_range data start ltac:(lia)) as (c & Hc & _).
  destruct (getitem_in_range data (start + 1) ltac:(lia)) as (lo & Hlo & _).
  destruct (getitem_in_range data (start + 2) ltac:(lia)) as (hi & Hhi & _).
  assert (Hh : parse_header data start
               = Ok (mkHeader
                       (if Z.land (byte_val c) 0x80 =? 0 then byte_val c
                        else Z.land (byte_val c) 0x7F)
                       (if Z.land (byte_val c) 0x80 =? 0 then false else true)
                       (byte_val lo + Z.shiftl (byte_val hi) 8), start + 3)).
  { unfold parse_header. rewrite Hc. cbn [rbind]. rewrite Hlo. cbn [rbind].
    replace (start + 1 + 1) with (start + 2) by lia. rewrite Hhi. cbn [rbind].
    replace (start + 1 + 2) with (start + 3) by lia.
    destruct (Z.land (byte_val c) 0x80 =? 0); reflexivity. }
  eexists _, _, _, _. split; [exact Hh|].
  split.
  { unfold detect_decompress_parameters.
    replace (len data <=? start + 3) with false
      by (symmetry; apply Z.leb_gt; exact Hlen).
    rewrite Hc. cbn [rbind]. rewrite Hlo. cbn [rbind]. rewrite Hhi. cbn [rbind].
    reflexivity. }
  cbn [data_size ec_value special_flag].
  split; [reflexivity|]. split.
  { rewrite (control_byte_split c) at 1.
    destruct (Z.land (byte_val c) 0x80 =? 0); reflexivity. }
  intros Hguess. apply andb_true_iff in Hguess. destruct Hguess as [Hc1 Hmod].
  apply Z.eqb_eq in Hc1. apply Z.eqb_eq in Hmod.
  assert (Hland : (Z.land (byte_val c) 0x80 =? 0) = true)
    by (rewrite Hc1; reflexivity).
  rewrite Hland in *. split; [exact Hc1|]. split; [reflexivity|].
  split; [exact Hmod|]. intros out lg Hd.
  pose proof (special_mode_output_bound _ _ _ _ _ _ Hh Hd) as Hb.
  unfold max_copy_length in Hb. cbn [ec_value special_flag] in Hb.
  rewrite Hc1 in Hb. change (Z.max 1 (0x0F + 1 + 0)) with 16 in Hb. lia.
Qed.

(** ** Special mode against standard mode *)

Ltac destruct_goal_inner :=
  match goal with
  | |- context [match ?x with _ => _ end] =>
      lazymatch x with
      | context [match _ with _ => _ end] => fail
      | _ => destruct x eqn:?
      end
  end.

Ltac sim_reduce :=
  cbv beta iota zeta
      delta [bind lift map_state standard_state
             output pos log special_counter bit_count command_byte
             emit set_pos set_output set_bits set_special_counter fst snd].

(** While the counter is positive an iteration of special mode does what
    the iteration of standard mode does, counter apart. *)
Lemma loop_body_standard (data : list byte) (h : header) (s : state) (c : Z) :
  special_counter s = Some c -> 0 < c ->
  loop_body data h false (standard_state s)
  = map_state standard_state (loop_body data h true s).
Proof.
  intros Hs Hc. destruct s as [out p bc cb sc lg]. cbn [special_counter] in Hs.
  subst sc.
  unfold loop_body, check_special_counter, read_command_bit, match_branch,
    literal_branch, read_match, apply_match, clamp_copy_length,
    decrement_special.
  sim_reduce.
  replace (c <=? 0) with false by (symmetry; apply Z.leb_gt; exact Hc).
  sim_reduce.
  repeat (destruct_goal_inner; sim_reduce); reflexivity.
Qed.

Lemma loop_cond_standard (data : list byte) (h : header) (s : state) :
  loop_cond data h (standard_state s) = loop_cond data h s.
Proof. reflexivity. Qed.

Lemma finish_standard (h : header) (s : state) :
  finish h (standard_state s) = finish h s.
Proof. reflexivity. Qed.

Lemma while_loop_output_extends (data : list byte) (h : header) (special : bool)
    (fuel : nat) (s r : state) :
  0 <= ec_value h <= 127 ->
  while_loop data h special fuel s = Some (Ok r) ->
  exists ext, output r = output s ++ ext.
Proof.
  intros Hec H. apply while_loop_iterates in H.
  destruct H as (t & s_last & Hsteps & Hend).
  apply iterates_extends in Hsteps; [|exact Hec].
  destruct Hsteps as (ext & Hext & _). exists ext.
  destruct Hend as [(_ & ->) | (_ & Hb)]; [exact Hext|].
  apply body_Break_facts in Hb. destruct Hb as (-> & _). exact Hext.
Qed.

(** A special-mode run and the standard-mode run from the corresponding
    state: the standard run gets at least as far, and the two end in
    corresponding states unless the special run stopped on its counter. *)
Lemma while_loop_special_prefix (data : list byte) (h : header) :
  0 <= ec_value h <= 127 ->
  forall fuel s c r r',
    special_counter s = Some c -> 0 <= c ->
    while_loop data h true fuel s = Some (Ok r) ->
    while_loop data h false fuel (standard_state s) = Some (Ok r') ->
    (exists ext, output r' = output r ++ ext) /\
    (r' = standard_state r \/ exists n, In (SpecialCounterZero n) (log r)).
Proof.
  intros Hec fuel.
  induction fuel as [|fuel IH]; intros s c r r' Hs Hc H H';
    cbn [while_loop] in H, H'; rewrite loop_cond_standard in H';
    destruct (loop_cond data h s) eqn:Hcond; try discriminate.
  - injection H as <-. injection H' as <-.
    split; [exists []; symmetry; apply app_nil_r | left; reflexivity].
  - destruct (Z_le_gt_dec c 0) as [Hz | Hpos].
    + assert (Hb : loop_body data h true s
                   = Break (emit (SpecialCounterZero (len (output s))) s)).
      { unfold loop_body, check_special_counter. rewrite Hs.
        replace (c <=? 0) with true by (symmetry; apply Z.leb_le; exact Hz).
        reflexivity. }
      rewrite Hb in H. injection H as <-.
      assert (Hw : while_loop data h false (S fuel) (standard_state s)
                   = Some (Ok r')).
      { cbn [while_loop]. rewrite loop_cond_standard, Hcond. exact H'. }
      apply while_loop_output_extends in Hw; [|exact Hec].
      split; [exact Hw|]. right. exists (len (output s)). cbn [emit log].
      apply in_or_app. right. left. reflexivity.
    + rewrite (loop_body_standard data h s c Hs ltac:(lia)) in H'.
      destruct (loop_body data h true s) as [s1|s1|s1|e] eqn:Hb;
        cbn [map_state] in H'.
      * pose proof (body_Next_facts _ _ _ Hec _ _ Hcond Hb)
          as (_ & _ & _ & (c0 & Hc0 & Hc1) & _).
        assert (c0 = c) by congruence. subst c0.
        apply (IH s1 (c - 1)); [exact Hc1 | lia | exact H | exact H'].
      * injection H as <-. injection H' as <-.
        split; [exists []; symmetry; apply app_nil_r | left; reflexivity].
      * pose proof (body_Continue_facts _ _ _ Hec _ _ Hb) as (_ & _ & Hsame & _).
        apply (IH s1 c); [congruence | exact Hc | exact H | exact H'].
      * discriminate.
  - injection H as <-. injection H' as <-.
    split; [exists []; symmetry; apply app_nil_r | left; reflexivity].
Qed.

(** X8.  Special mode only cuts a decode short.  On every input whose
    header can be read both modes return; what special mode returns is a
    prefix of what standard mode returns; and unless special mode printed
    its early-termination notice the two calls return the same output and
    print the same lines. *)
Theorem X8_special_mode_is_a_prefix (data : list byte) (start : Z)
    (h : header) (p : Z) :
  parse_header data start = Ok (h, p) ->
  exists out_special lg_special out_standard lg_standard ext,
    decompress_evo_data data start true = Some (Ok (out_special, lg_special)) /\
    decompress_evo_data data start false
    = Some (Ok (out_standard, lg_standard)) /\
    out_standard = out_special ++ ext /\
    ((forall n, ~ In (SpecialCounterZero n) lg_special) ->
     out_standard = out_special /\ lg_standard = lg_special).
Proof.
  intros Hh. pose proof (parse_header_range _ _ _ _ Hh) as [Hec _].
  destruct (decompress_returns data start true h p Hh) as (o1 & l1 & H1).
  destruct (decompress_returns data start false h p Hh) as (o2 & l2 & H2).
  pose proof H1 as H1'. pose proof H2 as H2'.
  unfold decompress_evo_data in H1', H2'.
  apply decompress_fuel_Ok_inv in H1'. destruct H1' as (h1 & p1 & r1 & Hh1 & Hw1 & Hf1).
  apply decompress_fuel_Ok_inv in H2'. destruct H2' as (h2 & p2 & r2 & Hh2 & Hw2 & Hf2).
  rewrite Hh in Hh1, Hh2. injection Hh1 as <- <-. injection Hh2 as <- <-.
  destruct (while_loop_special_prefix data h Hec _ (init_state h true p) 256
              r1 r2 eq_refl ltac:(lia) Hw1 Hw2) as ((ext & Hext) & Hsame).
  pose proof (finish_output h r1) as Ho1. rewrite Hf1 in Ho1. cbn [fst] in Ho1.
  pose proof (finish_output h r2) as Ho2. rewrite Hf2 in Ho2. cbn [fst] in Ho2.
  exists o1, l1, o2, l2, ext. split; [exact H1|]. split; [exact H2|].
  split; [congruence|]. intros Hno.
  destruct Hsame as [-> | (n & Hin)].
  - rewrite finish_standard in Hf2. rewrite Hf1 in Hf2.
    injection Hf2 as <- <-. split; reflexivity.
  - exfalso. apply (Hno n). unfold finish in Hf1.
    destruct (len (output r1) <? data_size h); injection Hf1 as <- <-;
      [apply in_or_app; left|]; exact Hin.
Qed.

Lemma X8_special_mode_is_a_prefix_witness :
  exists out_special lg_special out_standard lg_standard ext,
    decompress_evo_data
      ([x00; x00; x10] ++ concat (repeat (xff :: repeat x41 8) 40)) 0 true
    = Some (Ok (out_special, lg_special)) /\
    decompress_evo_data
      ([x00; x00; x10] ++ concat (repeat (xff :: repeat x41 8) 40)) 0 false
    = Some (Ok (out_standard, lg_standard)) /\
    out_standard = out_special ++ ext /\
    ((forall n, ~ In (SpecialCounterZero n) lg_special) ->
     out_standard = out_special /\ lg_standard = lg_special).
Proof.
  apply (X8_special_mode_is_a_prefix
           ([x00; x00; x10] ++ concat (repeat (xff :: repeat x41 8) 40)) 0
           (mkHeader 0 false 4096) 3).
  reflexivity.
Defined.

Lemma X7_heuristic_reads_decoder_header_witness :
  exists h guess control size,
    parse_header [x01; x00; x02; x0f] 0 = Ok (h, 0 + 3) /\
    detect_decompress_parameters [x01; x00; x02; x0f] 0
    = Ok (guess, control, size) /\
    size = data_size h /\
    control = ec_value h + (if special_flag h then 0x80 else 0) /\
    (guess = true ->
     ec_value h = 1 /\ special_flag h = false /\ data_size h mod 256 = 0 /\
     forall out lg,
       decompress_evo_data [x01; x00; x02; x0f] 0 true = Some (Ok (out, lg)) ->
       len out <= 4096).
Proof.
  apply (X7_heuristic_reads_decoder_header [x01; x00; x02; x0f] 0).
  - lia.
  - vm_compute. reflexivity.
Defined.

(** ** Literal commands *)

Lemma getitem_of_nth {A : Type} (l : list A) (i : Z) (x : A) :
  0 <= i -> nth_error l (Z.to_nat i) = Some x -> getitem l i = Ok x.
Proof.
  intros H0 Hnth.
  assert (Hlt : i < len l).
  { assert (Hn : (Z.to_nat i < length l)%nat)
      by (apply nth_error_Some; congruence).
    unfold len. lia. }
  destruct (getitem_in_range l i ltac:(lia)) as (y & Hy & Hnth').
  congruence.
Qed.

Lemma getitem_app_middle {A : Type} (pre post : list A) (x : A) :
  getitem (pre ++ x :: post) (len pre) = Ok x.
Proof.
  apply getitem_of_nth; [unfold len; lia|].
  unfold len. rewrite Nat2Z.id, nth_error_app2 by lia.
  rewrite Nat.sub_diag. reflexivity.
Qed.

Lemma byte_val_byte_of (x : Z) : 0 <= x <= 255 -> byte_val (byte_of x) = x.
Proof.
  intros Hx. unfold byte_of, byte_val.
  destruct (Byte.of_N (Z.to_N x)) as [b|] eqn:Hb.
  - apply Byte.to_of_N in Hb. rewrite Hb. lia.
  - apply Byte.of_N_None_iff in Hb. lia.
Qed.

(** A literal command for which a command byte is fetched first. *)
Lemma literal_step_reload (data : list byte) (h : header) (out : list byte)
    (p cb : Z) (lg : list diag) (c b : byte) :
  getitem data p = Ok c -> Z.land (byte_val c) 1 <> 0 ->
  getitem data (p + 1) = Ok b -> p + 1 < len data ->
  loop_body data h false (mkState out p 8 cb None lg)
  = Next (mkState (out ++ [b]) (p + 2) 1 (Z.shiftr (byte_val c) 1) None lg).
Proof.
  intros Hc Hbit Hb Hlt.
  unfold loop_body, check_special_counter, read_command_bit, literal_branch,
    decrement_special.
  sim_reduce. change (8 =? 8) with true. cbv iota. rewrite Hc. sim_reduce.
  apply Z.eqb_neq in Hbit. rewrite Hbit.
  replace (len data <=? p + 1) with false by (symmetry; apply Z.leb_gt; exact Hlt).
  rewrite Hb. sim_reduce. replace (p + 1 + 1) with (p + 2) by lia. reflexivity.
Qed.

(** A literal command whose bit comes from the current command byte. *)
Lemma literal_step_next (data : list byte) (h : header) (out : list byte)
    (p bc cb : Z) (lg : list diag) (b : byte) :
  bc <> 8 -> Z.land cb 1 <> 0 -> getitem data p = Ok b -> p < len data ->
  loop_body data h false (mkState out p bc cb None lg)
  = Next (mkState (out ++ [b]) (p + 1) (bc + 1) (Z.shiftr cb 1) None lg).
Proof.
  intros Hbc Hbit Hb Hlt.
  unfold loop_body, check_special_counter, read_command_bit, literal_branch,
    decrement_special.
  sim_reduce. apply Z.eqb_neq in Hbc. rewrite Hbc. sim_reduce.
  apply Z.eqb_neq in Hbit. rewrite Hbit.
  replace (len data <=? p) with false by (symmetry; apply Z.leb_gt; exact Hlt).
  rewrite Hb. sim_reduce. reflexivity.
Qed.

Lemma ones_shifted_low_bit (bc : nat) :
  (1 <= bc <= 7)%nat -> Z.land (Z.shiftr 255 (Z.of_nat bc)) 1 <> 0.
Proof.
  intros H.
  assert (Hc : bc = 1%nat \/ bc = 2%nat \/ bc = 3%nat \/ bc = 4%nat \/
               bc = 5%nat \/ bc = 6%nat \/ bc = 7%nat) by lia.
  destruct Hc as [-> | [-> | [-> | [-> | [-> | [-> | ->]]]]]]; discriminate.
Qed.

Lemma literal_stream_length (payload : list byte) :
  forall bc, (length payload <= length (literal_stream bc payload))%nat.
Proof.
  induction payload as [|b rest IH]; intros bc; cbn [literal_stream length].
  - lia.
  - destruct (Nat.eqb bc 8); cbn [length].
    + specialize (IH 1%nat). lia.
    + specialize (IH (S bc)). lia.
Qed.

(** The loop on a stream of literal commands appends the literals, in
    order, and stops at the end of the stream. *)
Lemma literal_run (h : header) (lg : list diag) (todo : list byte) :
  forall pre out bc fuel,
    (1 <= bc <= 8)%nat ->
    data_size h = len out + len todo ->
    (length todo <= fuel)%nat ->
    exists bc',
      while_loop (pre ++ literal_stream bc todo) h false fuel
                 (mkState out (len pre) (Z.of_nat bc)
                          (Z.shiftr 255 (Z.of_nat bc)) None lg)
      = Some (Ok (mkState (out ++ todo)
                          (len (pre ++ literal_stream bc todo)) bc'
                          (Z.shiftr 255 bc') None lg)).
Proof.
  induction todo as [|b rest IH]; intros pre out bc fuel Hbc Hsize Hfuel.
  - exists (Z.of_nat bc). cbn [literal_stream]. rewrite !app_nil_r.
    assert (Hc : loop_cond pre h
                   (mkState out (len pre) (Z.of_nat bc)
                            (Z.shiftr 255 (Z.of_nat bc)) None lg) = false).
    { unfold loop_cond. cbn [output pos].
      replace (len out <? data_size h) with false; [reflexivity|].
      symmetry. apply Z.ltb_ge. change (len (@nil byte)) with 0 in Hsize. lia. }
    destruct fuel; cbn [while_loop]; rewrite Hc; reflexivity.
  - destruct fuel as [|fuel]; [cbn [length] in Hfuel; lia|].
    cbn [length] in Hfuel.
    assert (Hlen : len (b :: rest) = len rest + 1) by (unfold len; cbn [length]; lia).
    assert (Hrest : 0 <= len rest) by (unfold len; lia).
    assert (Hstream : forall k, 0 <= len (literal_stream k rest))
      by (intros k; unfold len; lia).
    cbn [literal_stream]. destruct (Nat.eqb bc 8) eqn:H8.
    + apply Nat.eqb_eq in H8. subst bc.
      destruct (IH (pre ++ [xff; b]) (out ++ [b]) 1%nat fuel
                  ltac:(lia) ltac:(rewrite len_snoc; lia) ltac:(lia))
        as (bc' & Hrun).
      exists bc'.
      replace (pre ++ xff :: b :: literal_stream 1 rest)
        with ((pre ++ [xff; b]) ++ literal_stream 1 rest)
        by (rewrite <- app_assoc; reflexivity).
      replace (out ++ b :: rest) with ((out ++ [b]) ++ rest)
        by (rewrite <- app_assoc; reflexivity).
      assert (Hdata : len ((pre ++ [xff; b]) ++ literal_stream 1 rest)
                      = len pre + 2 + len (literal_stream 1 rest))
        by (rewrite !len_app; reflexivity).
      specialize (Hstream 1%nat).
      cbn [while_loop].
      replace (loop_cond ((pre ++ [xff; b]) ++ literal_stream 1 rest) h
                 (mkState out (len pre) (Z.of_nat 8)
                          (Z.shiftr 255 (Z.of_nat 8)) None lg)) with true.
      2: { symmetry. unfold loop_cond. cbn [output pos]. apply andb_true_iff.
           split; apply Z.ltb_lt; lia. }
      rewrite (literal_step_reload _ h out (len pre) _ lg xff b).
      * replace (len pre + 2) with (len (pre ++ [xff; b]))
          by (rewrite len_app; reflexivity).
        exact Hrun.
      * rewrite <- app_assoc. apply getitem_app_middle.
      * discriminate.
      * replace ((pre ++ [xff; b]) ++ literal_stream 1 rest)
          with ((pre ++ [xff]) ++ b :: literal_stream 1 rest)
          by (rewrite <- !app_assoc; reflexivity).
        replace (len pre + 1) with (len (pre ++ [xff])) by apply len_snoc.
        apply getitem_app_middle.
      * lia.
    + apply Nat.eqb_neq in H8.
      destruct (IH (pre ++ [b]) (out ++ [b]) (S bc) fuel
                  ltac:(lia) ltac:(rewrite len_snoc; lia) ltac:(lia))
        as (bc' & Hrun).
      exists bc'.
      replace (pre ++ b :: literal_stream (S bc) rest)
        with ((pre ++ [b]) ++ literal_stream (S bc) rest)
        by (rewrite <- app_assoc; reflexivity).
      replace (out ++ b :: rest) with ((out ++ [b]) ++ rest)
        by (rewrite <- app_assoc; reflexivity).
      assert (Hdata : len ((pre ++ [b]) ++ literal_stream (S bc) rest)
                      = len pre + 1 + len (literal_stream (S bc) rest))
        by (rewrite !len_app; reflexivity).
      specialize (Hstream (S bc)).
      cbn [while_loop].
      replace (loop_cond ((pre ++ [b]) ++ literal_stream (S bc) rest) h
                 (mkState out (len pre) (Z.of_nat bc)
                          (Z.shiftr 255 (Z.of_nat bc)) None lg)) with true.
      2: { symmetry. unfold loop_cond. cbn [output pos]. apply andb_true_iff.
           split; apply Z.ltb_lt; lia. }
      rewrite (literal_step_next _ h out (len pre) _ _ lg b).
      * replace (len pre + 1) with (len (pre ++ [b])) by apply len_snoc.
        replace (Z.of_nat bc + 1) with (Z.of_nat (S bc)) by lia.
        replace (Z.shiftr (Z.shiftr 255 (Z.of_nat bc)) 1)
          with (Z.shiftr 255 (Z.of_nat (S bc)))
          by (rewrite Z.shiftr_shiftr by lia; f_equal; lia).
        exact Hrun.
      * lia.
      * apply ones_shifted_low_bit. lia.
      * rewrite <- app_assoc. apply getitem_app_middle.
      * lia.
Qed.

Lemma literal_encoding_header (payload : list byte) :
  len payload <= 65535 ->
  parse_header (literal_encoding payload) 0
  = Ok (mkHeader 0 false (len payload), 3).
Proof.
  intros Hlen. assert (H0 : 0 <= len payload) by (unfold len; lia).
  unfold literal_encoding, parse_header. cbn [app].
  rewrite (getitem_of_nth _ 0 x00) by (reflexivity || lia). cbn [rbind].
  rewrite (getitem_of_nth _ (0 + 1) (byte_of (len payload mod 256)))
    by (reflexivity || lia). cbn [rbind].
  rewrite (getitem_of_nth _ (0 + 1 + 1) (byte_of (len payload / 256)))
    by (reflexivity || lia). cbn [rbind].
  change (byte_val x00) with 0. change (Z.land 0 0x80 =? 0) with true.
  cbn [fst snd].
  rewrite !byte_val_byte_of.
  - rewrite Z.shiftl_mul_pow2 by lia. change (2 ^ 8) with 256.
    replace (len payload mod 256 + len payload / 256 * 256) with (len payload)
      by (pose proof (Z.div_mod (len payload) 256 ltac:(lia)); lia).
    reflexivity.
  - split; [apply Z.div_pos; lia|].
    assert (len payload / 256 < 256) by (apply Z.div_lt_upper_bound; lia). lia.
  - pose proof (Z.mod_pos_bound (len payload) 256 ltac:(lia)). lia.
Qed.

(** X9.  A stream of literal commands decodes to its literals.  For every
    payload of at most 65535 bytes, the input made of the header
    [00 lo hi] with the length of the payload as size and the payload as
    literal commands (a command byte [ff] before each group of eight
    bytes) is decoded, in standard mode, to exactly the payload, and
    nothing but the three header lines is printed. *)
Theorem X9_literal_stream_decodes (payload : list byte) :
  len payload <= 65535 ->
  decompress_evo_data (literal_encoding payload) 0 false
  = Some (Ok (payload,
              [InfoControlByte 0; InfoSpecialFlag false;
               InfoDataSize (len payload)])).
Proof.
  intros Hlen.
  pose proof (literal_encoding_header payload Hlen) as Hh.
  unfold decompress_evo_data, decompress_evo_data_fuel. rewrite Hh.
  destruct (literal_run (mkHeader 0 false (len payload))
              [InfoControlByte 0; InfoSpecialFlag false;
               InfoDataSize (len payload)]
              payload
              [x00; byte_of (len payload mod 256); byte_of (len payload / 256)]
              [] 8%nat
              (loop_bound (literal_encoding payload) 0))
    as (bc' & Hrun).
  - lia.
  - reflexivity.
  - unfold loop_bound, literal_encoding. rewrite len_app.
    pose proof (literal_stream_length payload 8). unfold len. cbn [length]. lia.
  - unfold literal_encoding at 1. unfold init_state. cbn [ec_value special_flag data_size].
    change (len [x00; byte_of (len payload mod 256); byte_of (len payload / 256)])
      with 3 in Hrun.
    change (Z.of_nat 8) with 8 in Hrun. change (Z.shiftr 255 8) with 0 in Hrun.
    rewrite Hrun. unfold finish. cbn [output log data_size app].
    rewrite Z.ltb_irrefl. reflexivity.
Qed.

Lemma X9_literal_stream_decodes_witness :
  decompress_evo_data
    (literal_encoding [x10; x11; x12; x13; x14; x15; x16; x17; x18; x19]) 0 false
  = Some (Ok ([x10; x11; x12; x13; x14; x15; x16; x17; x18; x19],
              [InfoControlByte 0; InfoSpecialFlag false;
               InfoDataSize
                 (len [x10; x11; x12; x13; x14; x15; x16; x17; x18; x19])])).
Proof.
  apply (X9_literal_stream_decodes
           [x10; x11; x12; x13; x14; x15; x16; x17; x18; x19]).
  vm_compute. discriminate.
Defined.

(** ** The command line *)

Lemma detect_returns (data : list byte) (start : Z) :
  0 <= start ->
  exists guess control size,
    detect_decompress_parameters data start = Ok (guess, control, size).
Proof.
  intros H0. unfold detect_decompress_parameters.
  destruct (len data <=? start + 3) eqn:Hg; [eauto|].
  apply Z.leb_gt in Hg.
  destruct (getitem_in_range data start ltac:(lia)) as (c & -> & _).
  destruct (getitem_in_range data (start + 1) ltac:(lia)) as (lo & -> & _).
  destruct (getitem_in_range data (start + 2) ltac:(lia)) as (hi & -> & _).
  cbn [rbind]. eauto.
Qed.

Lemma header_parses (data : list byte) (start : Z) :
  0 <= start -> start + 3 <= len data ->
  exists h, parse_header data start = Ok (h, start + 3).
Proof.
  intros H0 Hlen.
  destruct (getitem_in_range data start ltac:(lia)) as (c & Hc & _).
  destruct (getitem_in_range data (start + 1) ltac:(lia)) as (lo & Hlo & _).
  destruct (getitem_in_range data (start + 2) ltac:(lia)) as (hi & Hhi & _).
  unfold parse_header. rewrite Hc. cbn [rbind]. rewrite Hlo. cbn [rbind].
  replace (start + 1 + 1) with (start + 2) by lia. rewrite Hhi. cbn [rbind].
  replace (start + 1 + 2) with (start + 3) by lia. eauto.
Qed.

(** X10.  What [main] does with a loaded ROM and a non-negative offset.  An
    offset at or past the end of the ROM ends the program before the
    decoder is called.  With one or two bytes left at the offset the
    decoder's [IndexError] is caught and reported, and nothing is written.
    With three or more bytes the decoder runs in the forced mode, or else
    in the mode the heuristic guesses, and its output, never longer than
    the size of the header, is written.  No exception escapes. *)
Theorem X10_main_decode (rom : list byte) (offset : Z) (special : bool) :
  0 <= offset ->
  (len rom <= offset -> main_decode rom offset special = Some ExitOffsetBeyondRom) /\
  (offset < len rom < offset + 3 ->
   exists mode, main_decode rom offset special
                = Some (ReportedError mode IndexError)) /\
  (offset + 3 <= len rom ->
   exists h guess control size out lg,
     parse_header rom offset = Ok (h, offset + 3) /\
     detect_decompress_parameters rom offset = Ok (guess, control, size) /\
     decompress_evo_data rom offset (special || guess) = Some (Ok (out, lg)) /\
     main_decode rom offset special = Some (Saved (special || guess) out) /\
     len out <= data_size h) /\
  (forall e, main_decode rom offset special <> Some (Uncaught e)).
Proof.
  intros H0.
  destruct (detect_returns rom offset H0) as (guess & control & size & Hd).
  assert (Hmode : choose_mode rom offset special = Ok (special || guess)).
  { unfold choose_mode. destruct special; [reflexivity|]. rewrite Hd.
    destruct guess; reflexivity. }
  split.
  { intros Hle. unfold main_decode.
    replace (len rom <=? offset) with true by (symmetry; apply Z.leb_le; exact Hle).
    reflexivity. }
  split.
  { intros Hlen. exists (special || guess). unfold main_decode.
    replace (len rom <=? offset) with false by (symmetry; apply Z.leb_gt; lia).
    rewrite Hmode, truncated_header_raises by lia. reflexivity. }
  split.
  { intros Hlen. destruct (header_parses rom offset H0 Hlen) as (h & Hh).
    destruct (decompress_returns rom offset (special || guess) h _ Hh)
      as (out & lg & Hrun).
    exists h, guess, control, size, out, lg.
    split; [exact Hh|]. split; [exact Hd|]. split; [exact Hrun|].
    split.
    - unfold main_decode.
      replace (len rom <=? offset) with false by (symmetry; apply Z.leb_gt; lia).
      rewrite Hmode, Hrun. reflexivity.
    - eapply decompress_output_bounded; eassumption. }
  intros e. unfold main_decode.
  destruct (len rom <=? offset); [discriminate|]. rewrite Hmode.
  destruct (decompress_evo_data rom offset (special || guess)) as [[[out lg]|e']|];
    discriminate.
Qed.

Lemma X10_main_decode_witness :
  (len [x00; x04; x00; x03; x41; x42; x01; x20] <= 0 ->
   main_decode [x00; x04; x00; x03; x41; x42; x01; x20] 0 false
   = Some ExitOffsetBeyondRom) /\
  (0 < len [x00; x04; x00; x03; x41; x42; x01; x20] < 0 + 3 ->
   exists mode, main_decode [x00; x04; x00; x03; x41; x42; x01; x20] 0 false
                = Some (ReportedError mode IndexError)) /\
  (0 + 3 <= len [x00; x04; x00; x03; x41; x42; x01; x20] ->
   exists h guess control size out lg,
     parse_header [x00; x04; x00; x03; x41; x42; x01; x20] 0 = Ok (h, 0 + 3) /\
     detect_decompress_parameters [x00; x04; x00; x03; x41; x42; x01; x20] 0
     = Ok (guess, control, size) /\
     decompress_evo_data [x00; x04; x00; x03; x41; x42; x01; x20] 0
                         (false || guess) = Some (Ok (out, lg)) /\
     main_decode [x00; x04; x00; x03; x41; x42; x01; x20] 0 false
     = Some (Saved (false || guess) out) /\
     len out <= data_size h) /\
  (forall e, main_decode [x00; x04; x00; x03; x41; x42; x01; x20] 0 false
             <> Some (Uncaught e)).
Proof.
  apply (X10_main_decode [x00; x04; x00; x03; x41; x42; x01; x20] 0 false). lia.
Defined.

(** X11.  An offset below minus the length of the ROM is not caught by the
    check of line 224.  Without [--special] the heuristic reads
    [rom_data[offset]] outside the [try] block and its [IndexError]
    escapes [main]; with [--special] the heuristic is not called and the
    decoder's [IndexError] is caught and reported. *)
Theorem X11_main_offset_below_rom (rom : list byte) (offset : Z) :
  2 <= len rom -> offset < - len rom ->
  main_decode rom offset false = Some (Uncaught IndexError) /\
  main_decode rom offset true = Some (ReportedError true IndexError).
Proof.
  intros Hlen Hoff.
  assert (Hget : getitem rom offset = Raise IndexError).
  { unfold getitem.
    replace (offset <? 0) with true by (symmetry; apply Z.ltb_lt; lia).
    replace (offset + len rom <? 0) with true by (symmetry; apply Z.ltb_lt; lia).
    reflexivity. }
  unfold main_decode.
  replace (len rom <=? offset) with false by (symmetry; apply Z.leb_gt; lia).
  split.
  - unfold choose_mode, detect_decompress_parameters.
    replace (len rom <=? offset + 3) with false by (symmetry; apply Z.leb_gt; lia).
    rewrite Hget. reflexivity.
  - cbn [choose_mode]. unfold decompress_evo_data.
    rewrite (decompress_fuel_header_error _ rom offset true IndexError);
      [reflexivity|].
    unfold parse_header. rewrite Hget. reflexivity.
Qed.

Lemma X11_main_offset_below_rom_witness :
  main_decode [x00; x04; x00; x03] (-5) false = Some (Uncaught IndexError) /\
  main_decode [x00; x04; x00; x03] (-5) true
  = Some (ReportedError true IndexError).
Proof.
  apply (X11_main_offset_below_rom [x00; x04; x00; x03] (-5));
    vm_compute; congruence.
Defined.

Lemma last_cons_default {A : Type} (l : list A) :
  forall x d d', last (x :: l) d = last (x :: l) d'.
Proof.
  induction l as [|y l IH]; intros x d d'; [reflexivity|].
  change (last (x :: y :: l) d) with (last (y :: l) d).
  change (last (x :: y :: l) d') with (last (y :: l) d'). apply IH.
Qed.

Lemma parse_args_fold (args : list string) :
  forall rom_file special,
    fold_left
      (fun (st : string * bool) (arg : string) =>
         if String.eqb arg "--special" then (fst st, true)
         else if negb (String.prefix "--" arg) then (arg, snd st)
         else st)
      args (rom_file, special)
    = (last (filter (fun a => negb (String.prefix "--" a)) args) rom_file,
       special || existsb (fun a => String.eqb a "--special") args).
Proof.
  induction args as [|arg args IH]; intros rom_file special.
  - cbn. rewrite orb_false_r. reflexivity.
  - cbn [fold_left filter existsb fst snd].
    destruct (String.eqb arg "--special") eqn:Heq.
    + apply String.eqb_eq in Heq. subst arg.
      change (negb (String.prefix "--" "--special")) with false. cbv iota.
      rewrite IH. rewrite orb_true_r. reflexivity.
    + destruct (negb (String.prefix "--" arg)) eqn:Hp.
      * rewrite IH. cbn [orb]. f_equal.
        destruct (filter _ args) as [|x l] eqn:Hf; [reflexivity|].
        change (last (arg :: x :: l) rom_file) with (last (x :: l) rom_file).
        apply last_cons_default.
      * rewrite IH. destruct special; reflexivity.
Qed.

(** X12.  The arguments after the offset: special mode is forced exactly
    when one of them is [--special]; the ROM file is the last argument
    that does not start with [--], and [evo.sfc] when there is none; other
    arguments starting with [--] are ignored. *)
Theorem X12_parse_args (args : list string) :
  fst (parse_args args)
  = last (filter (fun a => negb (String.prefix "--" a)) args) "evo.sfc"%string /\
  (snd (parse_args args) = true <-> In "--special"%string args).
Proof.
  unfold parse_args. rewrite parse_args_fold. cbn [fst snd orb]. split.
  - reflexivity.
  - rewrite existsb_exists. split.
    + intros (a & Hin & Heq). apply String.eqb_eq in Heq. subst a. exact Hin.
    + intros Hin. exists "--special"%string. split; [exact Hin | reflexivity].
Qed.

(** ** The hex dump *)

Lemma length_format_hex (w : nat) (n : Z) :
  length (format_hex w n) = Nat.max w (hex_width n).
Proof. unfold format_hex. rewrite length_map, length_rev, length_seq. reflexivity. Qed.

Lemma hex_width_bound (n : Z) (d : nat) :
  (1 <= d)%nat -> n < 16 ^ Z.of_nat d -> (hex_width n <= d)%nat.
Proof.
  intros Hd Hn. unfold hex_width.
  destruct (n <=? 0) eqn:H0; [exact Hd|]. apply Z.leb_gt in H0.
  change 16 with (2 ^ 4) in Hn. rewrite <- Z.pow_mul_r in Hn by lia.
  apply Z.log2_lt_pow2 in Hn; [|exact H0].
  assert (Z.log2 n / 4 < Z.of_nat d) by (apply Z.div_lt_upper_bound; lia).
  pose proof (Z.log2_nonneg n).
  assert (0 <= Z.log2 n / 4) by (apply Z.div_pos; lia). lia.
Qed.

Lemma length_format_hex_byte (b : byte) :
  length (format_hex 2 (byte_val b)) = 2%nat.
Proof.
  rewrite length_format_hex.
  assert (hex_width (byte_val b) <= 2)%nat.
  { apply hex_width_bound; [lia|]. pose proof (byte_val_range b).
    change (16 ^ Z.of_nat 2) with 256. lia. }
  lia.
Qed.

Lemma length_join_pairs (parts : list (list ascii)) :
  Forall (fun p => length p = 2%nat) parts -> parts <> [] ->
  (length (join [" "%char] parts) + 1 = 3 * length parts)%nat.
Proof.
  induction parts as [|p rest IH]; intros Hall Hne; [congruence|].
  inversion Hall as [|? ? Hp Hrest]; subst.
  destruct rest as [|q rest].
  - cbn [join length]. lia.
  - change (join [" "%char] (p :: q :: rest))
      with (p ++ [" "%char] ++ join [" "%char] (q :: rest)).
    rewrite !length_app. cbn [length].
    specialize (IH Hrest ltac:(discriminate)). cbn [length] in IH. lia.
Qed.



Section Dump.

Variable data : list byte.
Variable bytes_per_line : Z.
Hypothesis positive_width : 0 < bytes_per_line.

(** The number of lines: [len(range(0, len(data), bytes_per_line))]. *)
Local Abbreviation line_count :=
  (Z.to_nat ((len data + bytes_per_line - 1) / bytes_per_line)).

Lemma line_count_spec (k : nat) :
  (k < line_count)%nat <-> Z.of_nat k * bytes_per_line < len data.
Proof.
  assert (H0 : 0 <= len data) by (unfold len; lia).
  pose proof (Z.div_mod (len data + bytes_per_line - 1) bytes_per_line
                ltac:(lia)) as Hdm.
  pose proof (Z.mod_pos_bound (len data + bytes_per_line - 1) bytes_per_line
                positive_width) as Hmod.
  assert (Hq : 0 <= (len data + bytes_per_line - 1) / bytes_per_line)
    by (apply Z.div_pos; lia).
  split; intros H; nia.
Qed.

Lemma slice_chunk (k : nat) :
  slice data (Z.of_nat k * bytes_per_line)
        (Z.of_nat k * bytes_per_line + bytes_per_line)
  = firstn (Z.to_nat bytes_per_line)
           (skipn (k * Z.to_nat bytes_per_line) data).
Proof.
  unfold slice. f_equal; [f_equal; lia|]. f_equal. nia.
Qed.

Lemma dump_hex_lines_seq :
  dump_hex_lines data bytes_per_line
  = map (fun k =>
           dump_line bytes_per_line (Z.of_nat k * bytes_per_line)
                     (slice data (Z.of_nat k * bytes_per_line)
                            (Z.of_nat k * bytes_per_line + bytes_per_line)))
        (seq 0 line_count).
Proof.
  unfold dump_hex_lines, range_step.
  replace (bytes_per_line <=? 0) with false by (symmetry; apply Z.leb_gt; lia).
  rewrite map_map. reflexivity.
Qed.

Lemma chunk_length (k : nat) :
  (k < line_count)%nat ->
  len (slice data (Z.of_nat k * bytes_per_line)
             (Z.of_nat k * bytes_per_line + bytes_per_line))
  = Z.min bytes_per_line (len data - Z.of_nat k * bytes_per_line).
Proof.
  intros Hk. apply line_count_spec in Hk. rewrite slice_chunk.
  unfold len in *. rewrite length_firstn, length_skipn. nia.
Qed.

Lemma dump_line_length (i : Z) (chunk : list byte) :
  i < 16 ^ 8 -> 1 <= len chunk <= bytes_per_line ->
  len (dump_line bytes_per_line i chunk) = 13 + 3 * bytes_per_line + len chunk.
Proof.
  intros Hi Hchunk. unfold dump_line. cbv zeta.
  assert (Hhex : len (join [" "%char]
                        (map (fun b => format_hex 2 (byte_val b)) chunk)) + 1
                 = 3 * len chunk).
  { pose proof (length_join_pairs
                  (map (fun b => format_hex 2 (byte_val b)) chunk)) as H.
    rewrite length_map in H. unfold len.
    assert (chunk <> []) by (intros ->; cbn in Hchunk; lia).
    specialize (H ltac:(apply Forall_map, Forall_forall; intros b _;
                        apply length_format_hex_byte)
                  ltac:(destruct chunk; [congruence | discriminate])).
    lia. }
  assert (H8 : len (format_hex 8 i) = 8).
  { unfold len. rewrite length_format_hex.
    assert (hex_width i <= 8)%nat by (apply hex_width_bound; [lia | exact Hi]).
    lia. }
  unfold ljust. rewrite !len_app. unfold len at 4. rewrite repeat_length.
  rewrite H8. change (len (list_ascii_of_string ":  ")) with 3.
  change (len (list_ascii_of_string "  ")) with 2.
  replace (len (map shown chunk)) with (len chunk)
    by (unfold len; rewrite length_map; reflexivity).
  lia.
Qed.

End Dump.

Lemma hex_digit_printable (d : Z) : printable_ascii (hex_digit d) = true.
Proof.
  unfold hex_digit.
  destruct (nth_in_or_default (Z.to_nat d)
              (list_ascii_of_string "0123456789ABCDEF") "0"%char) as [Hin | ->];
    [|reflexivity].
  revert Hin. generalize (nth (Z.to_nat d)
                              (list_ascii_of_string "0123456789ABCDEF") "0"%char).
  intros c Hin. cbn in Hin.
  repeat (destruct Hin as [<- | Hin]; [reflexivity|]). destruct Hin.
Qed.

Lemma N_of_ascii_of_byte (b : byte) : N_of_ascii (ascii_of_byte b) = Byte.to_N b.
Proof. destruct b; reflexivity. Qed.

Lemma shown_spec (b : byte) :
  printable_ascii (shown b) = true /\
  (32 <= byte_val b <= 126 -> shown b = ascii_of_byte b) /\
  (byte_val b < 32 \/ 126 < byte_val b -> shown b = "."%char).
Proof.
  unfold shown.
  destruct ((32 <=? byte_val b) && (byte_val b <=? 126)) eqn:Hr.
  - apply andb_true_iff in Hr. destruct Hr as [H1 H2].
    apply Z.leb_le in H1. apply Z.leb_le in H2.
    split; [|split; [reflexivity | lia]].
    unfold printable_ascii. rewrite N_of_ascii_of_byte. unfold byte_val in *.
    apply andb_true_iff. split; apply N.leb_le; lia.
  - split; [reflexivity|]. split; [|reflexivity].
    intros [H1 H2]. apply Z.leb_le in H1. apply Z.leb_le in H2.
    rewrite H1, H2 in Hr. discriminate.
Qed.

Lemma format_hex_printable (w : nat) (n : Z) :
  Forall (fun c => printable_ascii c = true) (format_hex w n).
Proof.
  unfold format_hex. apply Forall_map, Forall_forall. intros j _.
  apply hex_digit_printable.
Qed.

Lemma join_Forall (P : ascii -> Prop) (sep : list ascii)
    (parts : list (list ascii)) :
  Forall P sep -> Forall (Forall P) parts -> Forall P (join sep parts).
Proof.
  intros Hsep Hparts. induction Hparts as [|p rest Hp Hrest IH]; [constructor|].
  destruct rest as [|q rest]; [exact Hp|].
  change (join sep (p :: q :: rest)) with (p ++ sep ++ join sep (q :: rest)).
  apply Forall_app. split; [exact Hp|]. apply Forall_app. split; [exact Hsep|].
  exact IH.
Qed.

Lemma dump_line_printable (bytes_per_line i : Z) (chunk : list byte) :
  Forall (fun c => printable_ascii c = true) (dump_line bytes_per_line i chunk).
Proof.
  unfold dump_line, ljust. cbv zeta.
  repeat (apply Forall_app; split).
  - apply format_hex_printable.
  - repeat constructor.
  - apply join_Forall; [repeat constructor|].
    apply Forall_map, Forall_forall. intros b _. apply format_hex_printable.
  - apply Forall_forall. intros c Hc. apply repeat_spec in Hc. subst c. reflexivity.
  - repeat constructor.
  - apply Forall_map, Forall_forall. intros b _. apply shown_spec.
Qed.

Lemma dump_hex_layout (data : list byte) (bytes_per_line : Z) :
  0 < bytes_per_line -> len data <= 16 ^ 8 ->
  exists n,
    Z.of_nat n = (len data + bytes_per_line - 1) / bytes_per_line /\
    length (dump_hex_lines data bytes_per_line) = n /\
    forall k, (k < n)%nat ->
      exists chunk,
        chunk = slice data (Z.of_nat k * bytes_per_line)
                      (Z.of_nat k * bytes_per_line + bytes_per_line) /\
        nth_error (dump_hex_lines data bytes_per_line) k
        = Some (dump_line bytes_per_line (Z.of_nat k * bytes_per_line) chunk) /\
        len chunk = Z.min bytes_per_line
                          (len data - Z.of_nat k * bytes_per_line) /\
        1 <= len chunk <= bytes_per_line /\
        len (dump_line bytes_per_line (Z.of_nat k * bytes_per_line) chunk)
        = 13 + 3 * bytes_per_line + len chunk.
Proof.
  intros Hpos Hlen.
  exists (Z.to_nat ((len data + bytes_per_line - 1) / bytes_per_line)).
  assert (H0 : 0 <= len data) by (unfold len; lia).
  split; [rewrite Z2Nat.id; [reflexivity | apply Z.div_pos; lia]|].
  rewrite (dump_hex_lines_seq data bytes_per_line Hpos).
  split; [rewrite length_map, length_seq; reflexivity|].
  intros k Hk. eexists. split; [reflexivity|].
  pose proof (chunk_length data bytes_per_line Hpos k Hk) as Hchunk.
  pose proof (proj1 (line_count_spec data bytes_per_line Hpos k) Hk) as Hlt.
  split.
  { rewrite nth_error_map, nth_error_seq.
    replace (k <? _)%nat with true by (symmetry; apply Nat.ltb_lt; exact Hk).
    reflexivity. }
  split; [exact Hchunk|]. split; [lia|].
  apply dump_line_length; lia.
Qed.






(** X16.  The preview [main] prints: at most 8 lines, each of at most 77
    characters, all of them printable ASCII. *)
Theorem X16_main_preview (decompressed : list byte) :
  (length (main_preview_lines decompressed) <= 8)%nat /\
  Forall (fun line => len line <= 77 /\
                      Forall (fun c => printable_ascii c = true) line)
         (main_preview_lines decompressed).
Proof.
  unfold main_preview_lines.
  assert (Hlen : len (slice decompressed 0 128) <= 128).
  { unfold slice, len. rewrite length_firstn. lia. }
  destruct (dump_hex_layout (slice decompressed 0 128) 16 ltac:(lia) ltac:(lia))
    as (n & Hn & Hcount & Hlines).
  assert (Hn8 : (n <= 8)%nat).
  { assert ((len (slice decompressed 0 128) + 16 - 1) / 16 < 9)
      by (apply Z.div_lt_upper_bound; lia). lia. }
  split; [lia|]. apply Forall_forall. intros line Hin.
  apply In_nth_error in Hin. destruct Hin as (k & Hk).
  assert (Hkn : (k < n)%nat).
  { rewrite <- Hcount. apply nth_error_Some. congruence. }
  destruct (Hlines k Hkn) as (chunk & _ & Hnth & _ & Hchunk & Hline).
  rewrite Hk in Hnth. injection Hnth as ->.
  split; [lia | apply dump_line_printable].
Qed.

(** ** Decoding at an offset and decoding the suffix *)

Lemma getitem_nonneg {A : Type} (l : list A) (i : Z) :
  0 <= i ->
  getitem l i
  = if len l <=? i then Raise IndexError
    else match nth_error l (Z.to_nat i) with
         | Some x => Ok x
         | None => Raise IndexError
         end.
Proof.
  intros Hi. unfold getitem.
  assert (H : (i <? 0) = false) by (apply Z.ltb_ge; exact Hi).
  rewrite H. cbv zeta. rewrite H. reflexivity.
Qed.

Section Suffix.

Variable data : list byte.
Variable n : nat.

Lemma getitem_skipn (i : Z) :
  Z.of_nat n <= i -> getitem (skipn n data) (i - Z.of_nat n) = getitem data i.
Proof.
  intros Hi.
  rewrite (getitem_nonneg (skipn n data)) by lia.
  rewrite (getitem_nonneg data) by lia.
  unfold len. rewrite length_skipn.
  destruct (Z.of_nat (length data) <=? i) eqn:Hle.
  - apply Z.leb_le in Hle.
    replace (Z.of_nat (length data - n) <=? i - Z.of_nat n) with true
      by (symmetry; apply Z.leb_le; lia).
    reflexivity.
  - apply Z.leb_gt in Hle.
    replace (Z.of_nat (length data - n) <=? i - Z.of_nat n) with false
      by (symmetry; apply Z.leb_gt; lia).
    rewrite nth_error_skipn. replace (n + Z.to_nat (i - Z.of_nat n))%nat
      with (Z.to_nat i) by lia.
    reflexivity.
Qed.

Lemma len_skipn_le (p : Z) :
  Z.of_nat n <= p ->
  (len (skipn n data) <=? p - Z.of_nat n) = (len data <=? p).
Proof.
  intros Hp. unfold len. rewrite length_skipn.
  destruct (Z.of_nat (length data) <=? p) eqn:H;
    [apply Z.leb_le in H; apply Z.leb_le | apply Z.leb_gt in H; apply Z.leb_gt];
    lia.
Qed.

Lemma len_skipn_lt (p : Z) :
  Z.of_nat n <= p ->
  (p - Z.of_nat n <? len (skipn n data)) = (p <? len data).
Proof.
  intros Hp. unfold len. rewrite length_skipn.
  destruct (p <? Z.of_nat (length data)) eqn:H;
    [apply Z.ltb_lt in H; apply Z.ltb_lt | apply Z.ltb_ge in H; apply Z.ltb_ge];
    lia.
Qed.

End Suffix.

Lemma shift_add (x k c : Z) : x - k + c = x + c - k.
Proof. lia. Qed.

Ltac shift_reduce :=
  cbv beta iota zeta
      delta [bind lift map_state map_outcome shift_state
             output pos log special_counter bit_count command_byte
             emit set_pos set_output set_bits set_special_counter fst snd].

Section Shift.

Variable data : list byte.
Variable n : nat.
Variable h : header.
Variable special : bool.

Local Abbreviation shifted := (shift_state (Z.of_nat n)).

Lemma emit_shift (d : diag) (s : state) :
  emit (shift_diag (Z.of_nat n) d) (shifted s) = shifted (emit d s).
Proof. unfold emit, shift_state. cbn. rewrite map_app. reflexivity. Qed.

Lemma check_special_counter_shift (s : state) :
  check_special_counter special (shifted s)
  = map_outcome (fun u => u) shifted (check_special_counter special s).
Proof.
  unfold check_special_counter.
  change (special_counter (shifted s)) with (special_counter s).
  change (output (shifted s)) with (output s).
  destruct special; [|reflexivity].
  destruct (special_counter s) as [c|]; [|reflexivity].
  destruct (c <=? 0); [|reflexivity].
  cbn [map_outcome]. rewrite <- emit_shift. reflexivity.
Qed.

Lemma read_command_bit_shift (s : state) :
  Z.of_nat n <= pos s ->
  read_command_bit (skipn n data) (shifted s)
  = map_outcome (fun r => (fst r, shifted (snd r))) shifted
                (read_command_bit data s).
Proof.
  intros Hp. destruct s as [out p bc cb sc lg]. cbn [pos] in Hp.
  unfold read_command_bit. shift_reduce.
  rewrite getitem_skipn by exact Hp.
  destruct (bc =? 8); [destruct (getitem data p)|]; shift_reduce;
    try reflexivity.
  rewrite shift_add. reflexivity.
Qed.

Lemma decrement_special_shift (s : state) :
  decrement_special special (shifted s)
  = map_state shifted (decrement_special special s).
Proof.
  unfold decrement_special.
  change (special_counter (shifted s)) with (special_counter s).
  destruct special; [|reflexivity].
  destruct (special_counter s); reflexivity.
Qed.

Lemma literal_branch_shift (s : state) :
  Z.of_nat n <= pos s ->
  literal_branch (skipn n data) special (shifted s)
  = map_state shifted (literal_branch data special s).
Proof.
  intros Hp. unfold literal_branch.
  change (pos (shifted s)) with (pos s - Z.of_nat n).
  rewrite len_skipn_le by exact Hp. rewrite getitem_skipn by exact Hp.
  destruct (len data <=? pos s).
  - cbn [map_state]. rewrite <- emit_shift. reflexivity.
  - destruct (getitem data (pos s)) as [b|e]; [|reflexivity].
    cbn [lift bind]. rewrite <- decrement_special_shift.
    f_equal. destruct s as [out p bc cb sc lg]. shift_reduce.
    rewrite shift_add. reflexivity.
Qed.

Lemma read_match_shift (s : state) :
  Z.of_nat n <= pos s ->
  read_match (skipn n data) h (shifted s)
  = map_outcome (fun r => (fst r, shifted (snd r))) shifted
                (read_match data h s).
Proof.
  intros Hp. destruct s as [out p bc cb sc lg]. cbn [pos] in Hp.
  unfold read_match. shift_reduce. rewrite ?shift_add.
  rewrite !len_skipn_le by lia. rewrite !getitem_skipn by lia.
  destruct (len data <=? p + 1); [rewrite map_app; reflexivity|].
  destruct (getitem data p) as [lo|]; [|reflexivity].
  destruct (getitem data (p + 1)) as [hi|]; [|reflexivity].
  destruct (_ && _); [|reflexivity].
  destruct (len data <=? p + 2); [rewrite map_app; reflexivity|].
  destruct (getitem data (p + 2)); reflexivity.
Qed.

Lemma clamp_copy_length_shift (c : Z) (s : state) :
  clamp_copy_length h c (shifted s)
  = (fst (clamp_copy_length h c s), shifted (snd (clamp_copy_length h c s))).
Proof.
  destruct s as [out p bc cb sc lg]. unfold clamp_copy_length. shift_reduce.
  destruct (0x2000 <? c); shift_reduce;
    destruct (data_size h <? _); shift_reduce;
    rewrite ?map_app; reflexivity.
Qed.

Lemma apply_match_shift (offset c : Z) (s : state) :
  apply_match h special offset c (shifted s)
  = map_state shifted (apply_match h special offset c s).
Proof.
  unfold apply_match.
  change (output (shifted s)) with (output s).
  destruct (len (output s) <? offset).
  - cbn [map_state]. rewrite <- emit_shift. f_equal. f_equal.
    cbn [shift_diag]. f_equal. unfold shift_state. cbn [pos]. lia.
  - rewrite clamp_copy_length_shift.
    destruct (clamp_copy_length h c s) as [c' s']. cbn [fst snd].
    change (output (shifted s')) with (output s').
    destruct (len (output s') =? 0).
    + cbn [map_state]. rewrite <- emit_shift. reflexivity.
    + destruct (copy_back (output s') offset (Z.to_nat c')) as [o|e];
        [|reflexivity].
      cbn [lift bind]. rewrite <- decrement_special_shift. reflexivity.
Qed.

Lemma match_branch_shift (s : state) :
  Z.of_nat n <= pos s ->
  match_branch (skipn n data) h special (shifted s)
  = map_state shifted (match_branch data h special s).
Proof.
  intros Hp. unfold match_branch. rewrite read_match_shift by exact Hp.
  destruct (read_match data h s) as [[[offset c] s1]| | |]; try reflexivity.
  cbn [map_outcome bind fst snd]. apply apply_match_shift.
Qed.

(** An iteration at cursor [p >= n] over the whole buffer and the iteration
    at cursor [p - n] over the buffer without its first [n] bytes do the
    same, positions apart. *)
Lemma loop_body_shift (s : state) :
  Z.of_nat n <= pos s ->
  loop_body (skipn n data) h special (shifted s)
  = map_state shifted (loop_body data h special s).
Proof.
  intros Hp. unfold loop_body. rewrite check_special_counter_shift.
  destruct (check_special_counter special s); try reflexivity.
  cbn [map_outcome bind]. rewrite read_command_bit_shift by exact Hp.
  destruct (read_command_bit data s) as [[bit s1]| | |] eqn:Hbit;
    try reflexivity.
  apply read_command_bit_pos in Hbit.
  cbn [map_outcome bind fst snd].
  destruct (bit =? 0);
    [apply match_branch_shift | apply literal_branch_shift]; lia.
Qed.

Lemma loop_cond_shift (s : state) :
  Z.of_nat n <= pos s ->
  loop_cond (skipn n data) h (shifted s) = loop_cond data h s.
Proof.
  intros Hp. unfold loop_cond.
  change (output (shifted s)) with (output s).
  change (pos (shifted s)) with (pos s - Z.of_nat n).
  rewrite len_skipn_lt by exact Hp. reflexivity.
Qed.

Lemma finish_shift (s : state) :
  finish h (shifted s) = shift_returned (Z.of_nat n) (finish h s).
Proof.
  unfold finish, shift_returned.
  change (output (shifted s)) with (output s).
  destruct (len (output s) <? data_size h); cbn [fst snd shift_state log];
    rewrite ?map_app; reflexivity.
Qed.

Hypothesis ec_range : 0 <= ec_value h <= 127.

Lemma while_loop_shift (fuel : nat) :
  forall s,
    Z.of_nat n <= pos s ->
    while_loop (skipn n data) h special fuel (shifted s)
    = option_map (map_result shifted) (while_loop data h special fuel s).
Proof.
  induction fuel as [|fuel IH]; intros s Hp; cbn [while_loop];
    rewrite loop_cond_shift by exact Hp;
    destruct (loop_cond data h s) eqn:Hc; try reflexivity.
  rewrite loop_body_shift by exact Hp.
  destruct (loop_body data h special s) as [s'|s'|s'|e] eqn:Hb;
    cbn [map_state]; try reflexivity.
  - apply IH. apply body_Next_facts in Hb; [|exact ec_range|exact Hc]. lia.
  - apply IH. apply body_Continue_facts in Hb; [|exact ec_range]. lia.
Qed.

End Shift.

Lemma parse_header_shift (data : list byte) (n : nat) :
  parse_header (skipn n data) 0
  = map_result (fun r => (fst r, snd r - Z.of_nat n))
               (parse_header data (Z.of_nat n)).
Proof.
  assert (Hget : forall c,
             0 <= c ->
             getitem (skipn n data) c = getitem data (Z.of_nat n + c)).
  { intros c Hc. rewrite <- (getitem_skipn data n (Z.of_nat n + c)) by lia.
    f_equal. lia. }
  unfold parse_header, rbind.
  rewrite (Hget 0), (Hget (0 + 1)), (Hget (0 + 1 + 1)) by lia.
  replace (Z.of_nat n + 0) with (Z.of_nat n) by lia.
  replace (Z.of_nat n + (0 + 1)) with (Z.of_nat n + 1) by lia.
  replace (Z.of_nat n + (0 + 1 + 1)) with (Z.of_nat n + 1 + 1) by lia.
  destruct (getitem data (Z.of_nat n)) as [c|]; [|reflexivity].
  destruct (getitem data (Z.of_nat n + 1)) as [lo|]; [|reflexivity].
  destruct (getitem data (Z.of_nat n + 1 + 1)) as [hi|]; [|reflexivity].
  cbn [map_result fst snd]. f_equal. f_equal. lia.
Qed.

Lemma loop_bound_skipn (data : list byte) (n : nat) :
  loop_bound (skipn n data) 0 = loop_bound data (Z.of_nat n).
Proof. unfold loop_bound, len. rewrite length_skipn. lia. Qed.

Lemma decompress_skipn (data : list byte) (n : nat) (special : bool) :
  decompress_evo_data (skipn n data) 0 special
  = option_map (map_result (shift_returned (Z.of_nat n)))
               (decompress_evo_data data (Z.of_nat n) special).
Proof.
  unfold decompress_evo_data, decompress_evo_data_fuel.
  rewrite loop_bound_skipn, parse_header_shift.
  destruct (parse_header data (Z.of_nat n)) as [[h p]|e] eqn:Hh;
    [|reflexivity].
  cbn [map_result fst snd].
  pose proof (parse_header_range _ _ _ _ Hh) as [Hec _].
  apply parse_header_inv in Hh.
  destruct Hh as (_ & _ & _ & _ & _ & _ & Hp & _).
  change (init_state h special (p - Z.of_nat n))
    with (shift_state (Z.of_nat n) (init_state h special p)).
  rewrite while_loop_shift; [|exact Hec|cbn [init_state pos]; lia].
  destruct (while_loop data h special _ _) as [[s|e]|];
    cbn [option_map map_result]; try reflexivity.
  rewrite finish_shift. reflexivity.
Qed.

(** X17 (decompress_evo_data, lines 4-131).  The start offset is only a
    base address: for a start offset that is not negative, decoding the
    buffer at that offset and decoding at offset 0 the buffer without the
    bytes before it behave alike.  Both raise the same exception or both
    return the same bytes, and they print the same messages, the input
    positions in the error messages being counted from the start of the
    buffer each call was given.  In particular no byte before the start
    offset is ever read. *)
Theorem X17_decode_at_offset_is_decode_of_suffix (data : list byte)
    (start : Z) (special : bool) :
  0 <= start ->
  decompress_evo_data (skipn (Z.to_nat start) data) 0 special
  = option_map (map_result (shift_returned start))
               (decompress_evo_data data start special).
Proof.
  intros Hs. rewrite <- (Z2Nat.id start Hs) at 2 3.
  apply decompress_skipn.
Qed.

Lemma X17_decode_at_offset_is_decode_of_suffix_witness :
  0 <= 2 /\
  decompress_evo_data
    (skipn (Z.to_nat 2) [x11; x22; x00; x02; x00; x01; x41])
    0 false
  = option_map (map_result (shift_returned 2))
      (decompress_evo_data
         [x11; x22; x00; x02; x00; x01; x41] 2 false).
Proof.
  split; [lia|].
  apply (X17_decode_at_offset_is_decode_of_suffix
           [x11; x22; x00; x02; x00; x01; x41] 2 false).
  lia.
Defined.
